(** * OpenAI-vs-Ollama: the turn controller and its two adapters

    A shallow embedding of
      - [src/app/page.tsx]       the React turn controller ([Home]),
      - [src/unnamed/part_001]   the [/api/openai-turn] route handler
                                 (adapter A, the hosted model),
      - [src/unnamed/part_000]   the [/api/llama-turn] route handler
                                 (adapter B, the local model),
      - [src/unnamed/part_002]   the message type [ChatMsg],
    together with the parts of the JavaScript platform they call
    ([String.prototype.trim], template literals, [JSON.stringify],
    [JSON.parse]).

    Strings are JavaScript strings: finite sequences of UTF-16 code units. *)

From Stdlib Require Import String Ascii DecimalString NArith ZArith Arith Bool Lia List.
Import ListNotations.

(* ================================================================== *)
(** ** JavaScript strings *)

(** A code unit; JavaScript keeps them below [2^16].  The functions below
    are total on [N]. *)
Abbreviation unit16 := N (only parsing).
Abbreviation jsstring := (list N) (only parsing).

(** An ASCII literal of the source, read as code units. *)
Fixpoint lit (s : string) : jsstring :=
  match s with
  | EmptyString => []
  | String a r => N_of_ascii a :: lit r
  end.

Fixpoint str_eqb (a b : jsstring) : bool :=
  match a, b with
  | [], [] => true
  | x :: a', y :: b' => (x =? y)%N && str_eqb a' b'
  | _, _ => false
  end.

(** Truthiness of a string: the empty string is the only falsy one. *)
Definition truthy (s : jsstring) : bool :=
  match s with [] => false | _ :: _ => true end.

(** [a ?? b] *)
Definition nullish {A} (a : option A) (b : A) : A :=
  match a with Some x => x | None => b end.

(** [a || b] on a possibly undefined string. *)
Definition or_else (a : option jsstring) (b : jsstring) : jsstring :=
  match a with
  | Some s => if truthy s then s else b
  | None => b
  end.

(** WhiteSpace and LineTerminator of ECMA-262, the units [trim] strips. *)
Definition is_space (c : unit16) : bool :=
  ((9 <=? c) && (c <=? 13) || (c =? 32) || (c =? 160) || (c =? 5760)
   || (8192 <=? c) && (c <=? 8202) || (c =? 8232) || (c =? 8233)
   || (c =? 8239) || (c =? 8287) || (c =? 12288) || (c =? 65279))%N.

Fixpoint trimStart (s : jsstring) : jsstring :=
  match s with
  | c :: r => if is_space c then trimStart r else s
  | [] => []
  end.

Definition trimEnd (s : jsstring) : jsstring := rev (trimStart (rev s)).

(** [String.prototype.trim] *)
Definition trim (s : jsstring) : jsstring := trimEnd (trimStart s).

(** [String.prototype.toUpperCase] on the Basic Latin letters.  The source
    applies it to speaker labels only, which are made of such letters. *)
Definition upper_unit (c : unit16) : unit16 :=
  if ((97 <=? c) && (c <=? 122))%N then (c - 32)%N else c.

Definition toUpperCase (s : jsstring) : jsstring := map upper_unit s.

(** [Array.prototype.join] on an array of strings. *)
Fixpoint join (sep : jsstring) (parts : list jsstring) : jsstring :=
  match parts with
  | [] => []
  | [p] => p
  | p :: rest => p ++ sep ++ join sep rest
  end.

(** Number-to-string conversion of a non-negative integer (an HTTP status). *)
Definition dec (n : N) : jsstring := lit (NilZero.string_of_uint (N.to_uint n)).

(** [a.includes(b)] *)
Definition includes (a b : jsstring) : Prop :=
  exists pre post, a = pre ++ b ++ post.

Definition LF : jsstring := [10%N].
Definition DQUOTE : jsstring := [34%N].

(* ================================================================== *)
(** ** JSON text: [JSON.stringify] and [JSON.parse] *)

Module JSON.

(** The values the application serialises are built from strings, arrays
    and objects; the literals [null], [true] and [false] are kept for the
    parser.  Number literals are outside this model: no text the
    application writes contains one, and [parse] rejects them. *)
#[local] Unset Elimination Schemes.
Inductive value :=
| Null
| Bool (b : bool)
| Str (s : jsstring)
| Arr (items : list value)
| Obj (members : list (jsstring * value)).
#[local] Set Elimination Schemes.

Definition is_lead (c : unit16) : bool := ((55296 <=? c) && (c <=? 56319))%N.
Definition is_trail (c : unit16) : bool := ((56320 <=? c) && (c <=? 57343))%N.

Definition hex_digit (d : N) : unit16 :=
  if (d <? 10)%N then (48 + d)%N else (87 + d)%N.

(** UnicodeEscape: a backslash, [u] and four lowercase hexadecimal digits. *)
Definition unicode_escape (c : unit16) : jsstring :=
  [92; 117;
   hex_digit ((c / 4096) mod 16); hex_digit ((c / 256) mod 16);
   hex_digit ((c / 16) mod 16); hex_digit (c mod 16)]%N.

(** One code unit that is not part of a surrogate pair, as QuoteJSONString
    writes it. *)
Definition quote_unit (c : unit16) : jsstring :=
  (if c =? 8 then [92; 98]
   else if c =? 9 then [92; 116]
   else if c =? 10 then [92; 110]
   else if c =? 12 then [92; 102]
   else if c =? 13 then [92; 114]
   else if c =? 34 then [92; 34]
   else if c =? 92 then [92; 92]
   else if (c <? 32) || is_lead c || is_trail c then unicode_escape c
   else [c])%N.

(** The body of QuoteJSONString: the string is read code point by code
    point, so a lead surrogate followed by a trail surrogate is copied and a
    surrogate on its own is escaped. *)
Fixpoint quote_body (s : jsstring) : jsstring :=
  match s with
  | [] => []
  | c :: r =>
      if is_lead c then
        match r with
        | d :: r' =>
            if is_trail d then c :: d :: quote_body r'
            else unicode_escape c ++ quote_body r
        | [] => unicode_escape c
        end
      else quote_unit c ++ quote_body r
  end.

Definition quote (s : jsstring) : jsstring := 34%N :: quote_body s ++ [34%N].

(** A line break followed by the indentation, or nothing when no gap was
    asked for. *)
Definition newline (gap indent : jsstring) : jsstring :=
  match gap with [] => [] | _ :: _ => 10%N :: indent end.

Definition colon (gap : jsstring) : jsstring :=
  match gap with [] => [58%N] | _ :: _ => [58%N; 32%N] end.

(** SerializeJSONProperty with SerializeJSONArray and SerializeJSONObject. *)
Fixpoint serialize (gap indent : jsstring) (v : value) {struct v} : jsstring :=
  match v with
  | Null => lit "null"
  | Bool true => lit "true"
  | Bool false => lit "false"
  | Str s => quote s
  | Arr [] => lit "[]"
  | Arr items =>
      let inner := indent ++ gap in
      [91%N] ++ newline gap inner
        ++ join (44%N :: newline gap inner) (map (serialize gap inner) items)
        ++ newline gap indent ++ [93%N]
  | Obj [] => lit "{}"
  | Obj members =>
      let inner := indent ++ gap in
      [123%N] ++ newline gap inner
        ++ join (44%N :: newline gap inner)
             (map (fun kv => match kv with
                             | (k, x) => quote k ++ colon gap ++ serialize gap inner x
                             end) members)
        ++ newline gap indent ++ [125%N]
  end.

(** [JSON.stringify(v)] and [JSON.stringify(v, null, n)]: the gap is [n]
    spaces, at most ten. *)
Definition stringify (v : value) : jsstring := serialize [] [] v.
Definition stringify_indent (n : nat) (v : value) : jsstring :=
  serialize (repeat 32%N (Nat.min n 10)) [] v.

(** *** Parsing *)

(** JSON white space: space, tab, line feed, carriage return. *)
Definition is_ws (c : unit16) : bool :=
  ((c =? 32) || (c =? 9) || (c =? 10) || (c =? 13))%N.

Fixpoint skip_ws (l : jsstring) : jsstring :=
  match l with
  | c :: r => if is_ws c then skip_ws r else l
  | [] => []
  end.

Definition hex_value (c : unit16) : option N :=
  (if (48 <=? c) && (c <=? 57) then Some (c - 48)
   else if (97 <=? c) && (c <=? 102) then Some (c - 87)
   else if (65 <=? c) && (c <=? 70) then Some (c - 55)
   else None)%N.

Definition hex4 (a b c d : unit16) : option unit16 :=
  match hex_value a, hex_value b, hex_value c, hex_value d with
  | Some x, Some y, Some z, Some w => Some (((x * 16 + y) * 16 + z) * 16 + w)%N
  | _, _, _, _ => None
  end.

(** The character a single-character escape stands for. *)
Definition unescape (e : unit16) : option unit16 :=
  (if e =? 34 then Some 34
   else if e =? 92 then Some 92
   else if e =? 47 then Some 47
   else if e =? 98 then Some 8
   else if e =? 102 then Some 12
   else if e =? 110 then Some 10
   else if e =? 114 then Some 13
   else if e =? 116 then Some 9
   else None)%N.

Definition cons_fst (c : unit16) (r : option (jsstring * jsstring)) :
  option (jsstring * jsstring) :=
  match r with
  | Some (s, rest) => Some (c :: s, rest)
  | None => None
  end.

(** The characters of a string literal after its opening quote, up to and
    including the closing quote.  Control characters must be escaped. *)
Fixpoint parse_chars (l : jsstring) : option (jsstring * jsstring) :=
  match l with
  | [] => None
  | c :: r =>
      if (c =? 34)%N then Some ([], r)
      else if (c =? 92)%N then
        match r with
        | [] => None
        | e :: r1 =>
            if (e =? 117)%N then
              match r1 with
              | h1 :: h2 :: h3 :: h4 :: r2 =>
                  match hex4 h1 h2 h3 h4 with
                  | Some u => cons_fst u (parse_chars r2)
                  | None => None
                  end
              | _ => None
              end
            else
              match unescape e with
              | Some u => cons_fst u (parse_chars r1)
              | None => None
              end
        end
      else if (c <? 32)%N then None
      else cons_fst c (parse_chars r)
  end.

(** [expect w l]: [l] without its prefix [w]. *)
Fixpoint expect (w l : jsstring) : option jsstring :=
  match w, l with
  | [], _ => Some l
  | a :: w', b :: l' => if (a =? b)%N then expect w' l' else None
  | _ :: _, [] => None
  end.

(** A value; the elements of an array up to its closing bracket; the
    members of an object up to its closing brace.  [fuel] bounds the number
    of nested calls and is given by the length of the text. *)
Fixpoint parse_value (fuel : nat) (l : jsstring) : option (value * jsstring) :=
  match fuel with
  | O => None
  | S f =>
      match skip_ws l with
      | [] => None
      | c :: r =>
          if (c =? 34)%N then
            match parse_chars r with
            | Some (s, r') => Some (Str s, r')
            | None => None
            end
          else if (c =? 91)%N then
            match expect [93%N] (skip_ws r) with
            | Some r' => Some (Arr [], r')
            | None =>
                match parse_elements f r with
                | Some (items, r') => Some (Arr items, r')
                | None => None
                end
            end
          else if (c =? 123)%N then
            match expect [125%N] (skip_ws r) with
            | Some r' => Some (Obj [], r')
            | None =>
                match parse_members f r with
                | Some (members, r') => Some (Obj members, r')
                | None => None
                end
            end
          else if (c =? 110)%N then
            match expect (lit "ull") r with
            | Some r' => Some (Null, r')
            | None => None
            end
          else if (c =? 116)%N then
            match expect (lit "rue") r with
            | Some r' => Some (Bool true, r')
            | None => None
            end
          else if (c =? 102)%N then
            match expect (lit "alse") r with
            | Some r' => Some (Bool false, r')
            | None => None
            end
          else None
      end
  end

with parse_elements (fuel : nat) (l : jsstring) : option (list value * jsstring) :=
  match fuel with
  | O => None
  | S f =>
      match parse_value f l with
      | None => None
      | Some (v, r) =>
          match expect [93%N] (skip_ws r) with
          | Some r' => Some ([v], r')
          | None =>
              match expect [44%N] (skip_ws r) with
              | Some r' =>
                  match parse_elements f r' with
                  | Some (vs, r'') => Some (v :: vs, r'')
                  | None => None
                  end
              | None => None
              end
          end
      end
  end

with parse_members (fuel : nat) (l : jsstring) :
  option (list (jsstring * value) * jsstring) :=
  match fuel with
  | O => None
  | S f =>
      match expect [34%N] (skip_ws l) with
      | None => None
      | Some r =>
          match parse_chars r with
          | None => None
          | Some (k, r1) =>
              match expect [58%N] (skip_ws r1) with
              | None => None
              | Some r2 =>
                  match parse_value f r2 with
                  | None => None
                  | Some (v, r3) =>
                      match expect [125%N] (skip_ws r3) with
                      | Some r' => Some ([(k, v)], r')
                      | None =>
                          match expect [44%N] (skip_ws r3) with
                          | Some r' =>
                              match parse_members f r' with
                              | Some (ms, r'') => Some ((k, v) :: ms, r'')
                              | None => None
                              end
                          | None => None
                          end
                      end
                  end
              end
          end
      end
  end.

(** [JSON.parse(text)]: one value, white space around it, nothing else.
    [None] stands for the SyntaxError. *)
Definition parse (text : jsstring) : option value :=
  match parse_value (S (length text)) text with
  | Some (v, r) => match skip_ws r with [] => Some v | _ :: _ => None end
  | None => None
  end.

(** Property read [o.k] on a parsed object: of two members with one key the
    later one is kept. *)
Fixpoint get (k : jsstring) (members : list (jsstring * value)) : option value :=
  match members with
  | [] => None
  | (k', v) :: rest =>
      match get k rest with
      | Some w => Some w
      | None => if str_eqb k k' then Some v else None
      end
  end.

(** *** Vocabulary of the round trip *)

(** White space only. *)
Definition blank (w : jsstring) : Prop := forallb is_ws w = true.

(** One member of an object as [serialize] writes it. *)
Definition member_text (gap inner : jsstring) (kv : jsstring * value) : jsstring :=
  match kv with
  | (k, x) => quote k ++ colon gap ++ serialize gap inner x
  end.

(** The first unit of a serialised value. *)
Definition opens (c : unit16) : Prop :=
  c = 34%N \/ c = 91%N \/ c = 123%N \/ c = 110%N \/ c = 116%N \/ c = 102%N.

(** The nested calls a value needs. *)
Fixpoint size (v : value) : nat :=
  match v with
  | Arr items => S (list_sum (map (fun x => S (size x)) items))
  | Obj members =>
      S (list_sum (map (fun kv => match kv with (_, x) => S (size x) end) members))
  | _ => 1
  end.

Definition value_ind (P : value -> Prop)
  (hNull : P Null) (hBool : forall b, P (Bool b)) (hStr : forall s, P (Str s))
  (hArr : forall items, Forall P items -> P (Arr items))
  (hObj : forall members, Forall (fun kv => P (snd kv)) members -> P (Obj members)) :
  forall v, P v :=
  fix go (v : value) : P v :=
    match v with
    | Null => hNull
    | Bool b => hBool b
    | Str s => hStr s
    | Arr items =>
        hArr items
          ((fix all (l : list value) : Forall P l :=
              match l with
              | [] => Forall_nil P
              | x :: r => Forall_cons x (go x) (all r)
              end) items)
    | Obj members =>
        hObj members
          ((fix all (l : list (jsstring * value)) : Forall (fun kv => P (snd kv)) l :=
              match l with
              | [] => Forall_nil _
              | kv :: r => Forall_cons kv (go (snd kv)) (all r)
              end) members)
    end.

(** What is to be shown of a value: written with any gap and indentation
    made of white space, after any white space and before any text, it is
    read back, with the text that follows it, by any sufficient fuel. *)
Definition reads_back (v : value) : Prop :=
  forall gap indent pre rest fuel,
    blank gap -> blank indent -> blank pre -> size v <= fuel ->
    parse_value fuel (pre ++ serialize gap indent v ++ rest) = Some (v, rest).

End JSON.

(* ================================================================== *)
(** ** The shared message type ([ChatMsg]) *)

Inductive Speaker := openai | llama.

Record ChatMsg := { speaker : Speaker; content : jsstring }.

(** The string a speaker is at run time. *)
Definition label (s : Speaker) : jsstring :=
  match s with
  | openai => lit "openai"
  | llama => lit "llama"
  end.

Definition Speaker_eqb (a b : Speaker) : bool :=
  match a, b with
  | openai, openai | llama, llama => true
  | _, _ => false
  end.

(** The template [`${m.speaker.toUpperCase()}: ${m.content}`], which both
    adapters use for a line of the transcript. *)
Definition labelled (m : ChatMsg) : jsstring :=
  toUpperCase (label (speaker m)) ++ lit ": " ++ content m.

(** The body [{ history, topic }] a route handler reads; a field that is
    absent or null is [None]. *)
Record TurnRequest := {
  req_history : option (list ChatMsg);
  req_topic : option jsstring
}.

(** What [await req.json()] gives: the body, or an exception with its
    [message]. *)
Inductive Incoming :=
| Body (r : TurnRequest)
| BadBody (message : option jsstring).

(** [process.env] *)
Record Env := {
  OPENAI_API_KEY : option jsstring;
  OPENAI_MODEL : option jsstring;
  OLLAMA_BASE_URL : option jsstring;
  OLLAMA_MODEL : option jsstring
}.

(** What a handler answers: [NextResponse.json(msg)] with status 200, or
    [NextResponse.json({ error }, { status: 500 })]. *)
Inductive Answer :=
| Reply (msg : ChatMsg)
| Failure (error : jsstring).

Definition status (a : Answer) : N :=
  match a with
  | Reply _ => 200%N
  | Failure _ => 500%N
  end.


Definition placeholder : jsstring := lit "(sin respuesta)".

Inductive Role := system | user | assistant.

Module Wire.
Record msg := { role : Role; content : jsstring }.
End Wire.

(* ------------------------------------------------------------------ *)
(** *** Adapter A: [POST /api/openai-turn] *)

Module AdapterA.

(** The argument of [client.responses.create]. *)
Record Request := { model : jsstring; input : list Wire.msg }.

(** What the hosted service does with it: [create] resolves to a response
    with its [output_text] (possibly undefined), or an exception is thrown
    inside the [try] block (no key, transport failure, a non-success status
    of the service), with its [message]. *)
Inductive Upstream :=
| Created (output_text : option jsstring)
| Throws (message : option jsstring).

Definition transcript (history : option (list ChatMsg)) : jsstring :=
  match history with
  | Some (m :: h) => join LF (map labelled (m :: h))
  | _ => []
  end.

Definition system_prompt : jsstring :=
  lit "Eres un LLM participando en una conversaci" ++ [243%N]
    ++ lit "n alternada con otro LLM. "
    ++ lit "Responde en 2-4 frases siendo muy r" ++ [225%N]
    ++ lit "dical sobre el t" ++ [243%N]
    ++ lit "pico que se pide. No hagas preguntas al usuario; habla al otro modelo.".

Definition default_topic : jsstring := lit "tecnolog" ++ [237%N] ++ lit "a".

Definition user_prompt (r : TurnRequest) : jsstring :=
  let transcript := transcript (req_history r) in
  if (0 <? length transcript)%nat
  then lit "Conversaci" ++ [243%N] ++ lit "n hasta ahora:" ++ LF ++ transcript
         ++ LF ++ LF ++ lit "Ahora te toca hablar. Contin" ++ [250%N] ++ lit "a."
  else lit "Inicia una conversaci" ++ [243%N]
         ++ lit "n con otro LLM sobre este tema: " ++ DQUOTE
         ++ nullish (req_topic r) default_topic ++ DQUOTE ++ lit ".".

Definition request (env : Env) (r : TurnRequest) : Request :=
  {| model := nullish (OPENAI_MODEL env) (lit "gpt-4.1-mini");
     input := [ {| Wire.role := system; Wire.content := system_prompt |};
                {| Wire.role := user; Wire.content := user_prompt r |} ] |}.

(** [resp.output_text?.trim() || "(sin respuesta)"] *)
Definition reply_text (output_text : option jsstring) : jsstring :=
  or_else (option_map trim output_text) placeholder.

Definition POST (env : Env) (req : Incoming) (up : Upstream) : Answer :=
  match req with
  | BadBody message => Failure (nullish message (lit "OpenAI error"))
  | Body r =>
      match up with
      | Created output_text =>
          Reply {| speaker := openai; content := reply_text output_text |}
      | Throws message => Failure (nullish message (lit "OpenAI error"))
      end
  end.

End AdapterA.

(* ------------------------------------------------------------------ *)
(** *** Adapter B: [POST /api/llama-turn] *)

Module AdapterB.

(** The outbound [fetch]: its URL and the object its body is the JSON text
    of. *)
Record Request := {
  url : jsstring;
  model : jsstring;
  messages : list Wire.msg;
  stream : bool
}.

(** What the local service does with it: it answers with [r.ok] and a body
    that parses, [content] being [data?.message?.content] (undefined or null
    is [None]); or it answers without [r.ok], with a status and a text; or an
    exception is thrown inside the [try] block (transport failure, a body
    that does not parse, a [content] that is not a string), with its
    [message]. *)
Inductive Upstream :=
| Answered (content : option jsstring)
| NotOk (status : N) (txt : jsstring)
| Throws (message : option jsstring).

Definition system_prompt : jsstring :=
  lit "Eres un LLM hablando con otro LLM, ten en cuenta que eres muy pasota y eres muy feliz en la vida sin darle mucha importancia a las cosas. Responde en 2-4 frases. "
    ++ lit "No hables como si fueras un humano.".

Definition closing_prompt : jsstring :=
  lit "Ahora te toca responder. Contin" ++ [250%N] ++ lit "a la conversaci"
    ++ [243%N] ++ lit "n.".

Definition build_messages (history : option (list ChatMsg)) : list Wire.msg :=
  [ {| Wire.role := system; Wire.content := system_prompt |} ]
    ++ map (fun m => {| Wire.role := assistant; Wire.content := labelled m |})
         (nullish history [])
    ++ [ {| Wire.role := user; Wire.content := closing_prompt |} ].

Definition request (env : Env) (r : TurnRequest) : Request :=
  let baseUrl := nullish (OLLAMA_BASE_URL env) (lit "http://localhost:11434") in
  {| url := baseUrl ++ lit "/api/chat";
     model := nullish (OLLAMA_MODEL env) (lit "llama3");
     messages := build_messages (req_history r);
     stream := false |}.

(** [(data?.message?.content ?? "").trim() || "(sin respuesta)"] *)
Definition reply_text (content : option jsstring) : jsstring :=
  or_else (Some (trim (nullish content []))) placeholder.

Definition POST (env : Env) (req : Incoming) (up : Upstream) : Answer :=
  match req with
  | BadBody message => Failure (nullish message (lit "Ollama error"))
  | Body r =>
      match up with
      | NotOk status txt =>
          Failure (lit "Ollama error " ++ dec status ++ lit ": " ++ txt)
      | Answered content =>
          Reply {| speaker := llama; content := reply_text content |}
      | Throws message => Failure (nullish message (lit "Ollama error"))
      end
  end.

End AdapterB.

(* ================================================================== *)
(** ** The turn controller ([Home] in [src/app/page.tsx]) *)

Module Controller.

Definition maxRounds : nat := 10.

(** The [useState] cells of the component, as one render sees them.  A
    render's handlers ([nextTurn], [startConversation], ...) close over these
    values: inside one handler call they do not change, whatever setters the
    handler calls. *)
Record State := {
  topic : jsstring;
  history : list ChatMsg;
  turn : Speaker;
  loading : bool;
  error : option jsstring;
  isRunning : bool;
  roundCount : nat;
  showExport : bool
}.

Definition initial_topic : jsstring :=
  lit "Impacto de la IA en la educaci" ++ [243%N] ++ lit "n".

Definition initial : State :=
  {| topic := initial_topic; history := []; turn := openai; loading := false;
     error := None; isRunning := false; roundCount := 0; showExport := false |}.

(** A queued state update: a setter call, with a value or with an updater
    function.  The updates a handler queues are applied together, in order,
    when the handler returns. *)
Definition Update := State -> State.

Definition setTopic (v : jsstring) : Update := fun s =>
  {| topic := v; history := history s; turn := turn s; loading := loading s;
     error := error s; isRunning := isRunning s; roundCount := roundCount s;
     showExport := showExport s |}.

Definition setHistory (f : list ChatMsg -> list ChatMsg) : Update := fun s =>
  {| topic := topic s; history := f (history s); turn := turn s;
     loading := loading s; error := error s; isRunning := isRunning s;
     roundCount := roundCount s; showExport := showExport s |}.

Definition setTurn (f : Speaker -> Speaker) : Update := fun s =>
  {| topic := topic s; history := history s; turn := f (turn s);
     loading := loading s; error := error s; isRunning := isRunning s;
     roundCount := roundCount s; showExport := showExport s |}.

Definition setLoading (v : bool) : Update := fun s =>
  {| topic := topic s; history := history s; turn := turn s; loading := v;
     error := error s; isRunning := isRunning s; roundCount := roundCount s;
     showExport := showExport s |}.

Definition setError (v : option jsstring) : Update := fun s =>
  {| topic := topic s; history := history s; turn := turn s;
     loading := loading s; error := v; isRunning := isRunning s;
     roundCount := roundCount s; showExport := showExport s |}.

Definition setIsRunning (v : bool) : Update := fun s =>
  {| topic := topic s; history := history s; turn := turn s;
     loading := loading s; error := error s; isRunning := v;
     roundCount := roundCount s; showExport := showExport s |}.

Definition setRoundCount (f : nat -> nat) : Update := fun s =>
  {| topic := topic s; history := history s; turn := turn s;
     loading := loading s; error := error s; isRunning := isRunning s;
     roundCount := f (roundCount s); showExport := showExport s |}.

Definition setShowExport (v : bool) : Update := fun s =>
  {| topic := topic s; history := history s; turn := turn s;
     loading := loading s; error := error s; isRunning := isRunning s;
     roundCount := roundCount s; showExport := v |}.

Definition commit (updates : list Update) (s : State) : State :=
  fold_left (fun acc u => u acc) updates s.

Definition when (b : bool) (updates : list Update) : list Update :=
  if b then updates else [].

Definition isFinished (s : State) : bool := (maxRounds <=? roundCount s)%nat.

Definition other (t : Speaker) : Speaker :=
  match t with openai => llama | llama => openai end.

(** *** [nextTurn] *)

(** A call of [nextTurn] that is waiting for its [fetch]: the endpoint and
    the body it sent, both taken from the render the call was made in. *)
Record Call := {
  endpoint : Speaker;
  sent : TurnRequest
}.

(** How a pending [fetch] ends: the route handler runs against what its
    model service does, or the [fetch] itself is rejected. *)
Inductive Outcome :=
| ByOpenAI (up : AdapterA.Upstream)
| ByOllama (up : AdapterB.Upstream)
| Rejected (message : option jsstring).

(** The part of [nextTurn] before its first [await]: the two setter calls
    and the request, for the render [r] the function belongs to. *)
Definition nextTurn_begin (r : State) : list Update * Call :=
  ([setLoading true; setError None],
   {| endpoint := turn r;
      sent := {| req_history := Some (history r); req_topic := Some (topic r) |} |}).

(** What the [try] block gets from the [fetch]: the message of a response
    that is [ok] (a [Reply], status 200), or the message of the exception
    ([res.text()] of a response that is not [ok] (a [Failure], status 500),
    the rejection's own otherwise).  [None] when the outcome is not one of
    the endpoint the call went to. *)
Definition fetched (env : Env) (c : Call) (o : Outcome) :
  option (ChatMsg + option jsstring) :=
  let of_answer (a : Answer) :=
    match a with
    | Reply msg => inl msg
    | Failure e =>
        inr (Some (JSON.stringify (JSON.Obj [(lit "error", JSON.Str e)])))
    end in
  match o, endpoint c with
  | ByOpenAI up, openai => Some (of_answer (AdapterA.POST env (Body (sent c)) up))
  | ByOllama up, llama => Some (of_answer (AdapterB.POST env (Body (sent c)) up))
  | Rejected message, _ => Some (inr message)
  | _, _ => None
  end.

(** The rest of [nextTurn], once the [fetch] is settled: the [try] block's
    three updater calls, or the [catch] block, then [finally]. *)
Definition nextTurn_end (c : Call) (res : ChatMsg + option jsstring) : list Update :=
  match res with
  | inl msg =>
      [setHistory (fun h => h ++ [msg]);
       setTurn other;
       setRoundCount (fun r => r + 1)]
  | inr message =>
      [setError (Some (nullish message (lit "Error desconocido")));
       setIsRunning false]
        ++ when (0 <? length (nullish (req_history (sent c)) []))%nat
             [setShowExport true]
  end ++ [setLoading false].

(** *** The other handlers, for the render [r] they belong to *)

Definition reset : list Update :=
  [setHistory (fun _ => []);
   setTurn (fun _ => openai);
   setError None;
   setRoundCount (fun _ => 0);
   setIsRunning false;
   setShowExport false].

Definition stopDebate (r : State) : list Update :=
  [setIsRunning false] ++ when (0 <? length (history r))%nat [setShowExport true].

Definition startConversation (r : State) : list Update * Call :=
  let (begin, call) := nextTurn_begin r in
  (when (0 <? length (history r))%nat reset
     ++ [setIsRunning true; setShowExport false]
     ++ begin,
   call).

(** *** Effects *)

(** The dependency lists of the two effects that set state, compared
    between two renders: [[isFinished, history.length]] and
    [[isRunning, loading, turn, roundCount, topic]]. *)
Definition export_deps_eqb (a b : State) : bool :=
  Bool.eqb (isFinished a) (isFinished b)
  && (length (history a) =? length (history b))%nat.

Definition auto_deps_eqb (a b : State) : bool :=
  Bool.eqb (isRunning a) (isRunning b) && Bool.eqb (loading a) (loading b)
  && Speaker_eqb (turn a) (turn b) && (roundCount a =? roundCount b)%nat
  && str_eqb (topic a) (topic b).

(** [if (isFinished && history.length > 0) setShowExport(true)] *)
Definition export_effect (r : State) : list Update :=
  when (isFinished r && (0 <? length (history r))%nat) [setShowExport true].

(** The auto-continuation effect of render [r]: the timer it arms (the
    render whose [nextTurn] the timer will call) and the updates it queues. *)
Definition auto_effect (r : State) : option State * list Update :=
  if isRunning r && negb (loading r) && (roundCount r <? maxRounds)%nat
  then (Some r, [])
  else if isRunning r && (maxRounds <=? roundCount r)%nat
  then (None, [setIsRunning false; setShowExport true])
  else (None, []).

(** The effects after a render [cur] that follows the render [prev]: an
    effect runs when one of its dependencies changed, the auto-continuation
    effect after the clean-up of its previous run, which clears the timer. *)
Definition effects (prev cur : State) (timer : option State) :
  option State * list Update :=
  let ex := if export_deps_eqb prev cur then [] else export_effect cur in
  if auto_deps_eqb prev cur then (timer, ex)
  else let (timer', au) := auto_effect cur in (timer', ex ++ au).

(** One session: the last render, the pending timer and the [nextTurn]
    calls whose [fetch] is not settled yet. *)
Record Session := {
  view : State;
  timer : option State;
  inflight : list Call
}.

(** Commit the updates a handler queued, then run the effects; the updates
    the effects queue give one more render, whose effects queue nothing. *)
Definition render (s : Session) (updates : list Update) (calls : list Call) : Session :=
  let prev := view s in
  let cur := commit updates prev in
  let (t1, us1) := effects prev cur (timer s) in
  let cur1 := commit us1 cur in
  let (t2, us2) := effects cur cur1 t1 in
  {| view := commit us2 cur1; timer := t2; inflight := calls |}.

(** The component after mounting: every effect has run once, for the
    initial state. *)
Definition mounted : Session :=
  {| view := initial; timer := None; inflight := [] |}.

(** *** Events *)

Inductive Event :=
| ClickStart                        (* the button [Empezar debate] / [Reiniciar y empezar] *)
| PressEnter                        (* the Enter key in the topic input *)
| ClickStop                         (* the button [Parar debate] *)
| ClickReset                        (* the button [Reset] *)
| TypeTopic (text : jsstring)       (* [onChange] of the topic input *)
| TimerFires                        (* the pending [setTimeout] of the effect *)
| Settles (i : nat) (o : Outcome).  (* the [fetch] of the i-th pending call *)

Fixpoint remove_nth {A} (i : nat) (l : list A) : list A :=
  match i, l with
  | _, [] => []
  | O, _ :: r => r
  | S j, x :: r => x :: remove_nth j r
  end.

(** One event.  [None]: the page does not offer the event in this state (a
    button that is disabled or not rendered, no timer, no such call). *)
Definition step (env : Env) (s : Session) (e : Event) : option Session :=
  let r := view s in
  match e with
  | ClickStart =>
      if loading r || negb (truthy (trim (topic r))) then None
      else let (us, c) := startConversation r in
           Some (render s us (inflight s ++ [c]))
  | PressEnter =>
      if truthy (trim (topic r))
      then let (us, c) := startConversation r in
           Some (render s us (inflight s ++ [c]))
      else Some s
  | ClickStop =>
      if isRunning r then Some (render s (stopDebate r) (inflight s)) else None
  | ClickReset =>
      if isRunning r then None else Some (render s reset (inflight s))
  | TypeTopic text => Some (render s [setTopic text] (inflight s))
  | TimerFires =>
      match timer s with
      | None => None
      | Some r' =>
          let (us, c) := nextTurn_begin r' in
          Some (render {| view := r; timer := None; inflight := inflight s |}
                  us (inflight s ++ [c]))
      end
  | Settles i o =>
      match nth_error (inflight s) i with
      | None => None
      | Some c =>
          match fetched env c o with
          | None => None
          | Some res => Some (render s (nextTurn_end c res) (remove_nth i (inflight s)))
          end
      end
  end.

Fixpoint run (env : Env) (s : Session) (es : list Event) : option Session :=
  match es with
  | [] => Some s
  | e :: es' =>
      match step env s e with
      | Some s' => run env s' es'
      | None => None
      end
  end.

Inductive reachable (env : Env) : Session -> Prop :=
| reach_mounted : reachable env mounted
| reach_step s e s' :
    reachable env s -> step env s e = Some s' -> reachable env s'.

(** Strict alternation from the first speaker on. *)
Fixpoint alternates (first : Speaker) (h : list ChatMsg) : bool :=
  match h with
  | [] => true
  | m :: h' => Speaker_eqb (speaker m) first && alternates (other first) h'
  end.

(** *** [exportConversation("json")]: the text the Blob is made of *)

Definition message_value (m : ChatMsg) : JSON.value :=
  JSON.Obj [(lit "speaker", JSON.Str (label (speaker m)));
            (lit "content", JSON.Str (content m))].

Definition session_value (topic : jsstring) (history : list ChatMsg) : JSON.value :=
  JSON.Obj [(lit "topic", JSON.Str topic);
            (lit "history", JSON.Arr (map message_value history))].

Definition export_json (s : State) : jsstring :=
  JSON.stringify_indent 2 (session_value (topic s) (history s)).

(** What a reader of the exported file gets back: [JSON.parse(text)], then
    the fields [topic] and [history] of the object, every entry of
    [history] with its [speaker] and [content]. *)
Definition as_string (v : JSON.value) : option jsstring :=
  match v with JSON.Str s => Some s | _ => None end.

Definition as_speaker (v : JSON.value) : option Speaker :=
  match as_string v with
  | Some s =>
      if str_eqb s (label openai) then Some openai
      else if str_eqb s (label llama) then Some llama
      else None
  | None => None
  end.

Definition as_message (v : JSON.value) : option ChatMsg :=
  match v with
  | JSON.Obj members =>
      match JSON.get (lit "speaker") members, JSON.get (lit "content") members with
      | Some a, Some b =>
          match as_speaker a, as_string b with
          | Some sp, Some c => Some {| speaker := sp; content := c |}
          | _, _ => None
          end
      | _, _ => None
      end
  | _ => None
  end.

Fixpoint as_messages (l : list JSON.value) : option (list ChatMsg) :=
  match l with
  | [] => Some []
  | v :: r =>
      match as_message v, as_messages r with
      | Some m, Some ms => Some (m :: ms)
      | _, _ => None
      end
  end.

Definition as_session (v : JSON.value) : option (jsstring * list ChatMsg) :=
  match v with
  | JSON.Obj members =>
      match JSON.get (lit "topic") members, JSON.get (lit "history") members with
      | Some a, Some (JSON.Arr items) =>
          match as_string a, as_messages items with
          | Some tp, Some h => Some (tp, h)
          | _, _ => None
          end
      | _, _ => None
      end
  | _ => None
  end.

Definition read_back (text : jsstring) : option (jsstring * list ChatMsg) :=
  match JSON.parse text with
  | Some v => as_session v
  | None => None
  end.

(** *** Sample runs *)

Definition no_env : Env :=
  {| OPENAI_API_KEY := None; OPENAI_MODEL := None;
     OLLAMA_BASE_URL := None; OLLAMA_MODEL := None |}.

(** The pending call at the head of the queue is answered with a text. *)
Definition openai_says (text : jsstring) : Event :=
  Settles 0 (ByOpenAI (AdapterA.Created (Some text))).
Definition llama_says (text : jsstring) : Event :=
  Settles 0 (ByOllama (AdapterB.Answered (Some text))).

Definition after (es : list Event) : Session :=
  match run no_env mounted es with
  | Some s => s
  | None => mounted
  end.

(** One round: the debate is started and the hosted model answers. *)
Definition one_round_events : list Event := [ClickStart; openai_says (lit "hola")].
Definition one_round : Session := Eval vm_compute in after one_round_events.

(** A restart between two turns: the debate is started, the hosted model
    answers, and [Reiniciar y empezar] is clicked while the timer of the second
    turn is pending; then the run goes on by itself. *)
Definition restart_events : list Event :=
  [ClickStart; openai_says (lit "uno");
   ClickStart; llama_says (lit "dos");
   TimerFires; llama_says (lit "tres")].

(** Enter is pressed eleven times before the first answer is there (the key
    held down, say); then the eleven answers arrive. *)
Definition enter_events : list Event :=
  repeat PressEnter 11 ++ repeat (openai_says (lit "hola")) 11.

(** A turn is pending, and the hosted service turns it down. *)
Definition started : Session := Eval vm_compute in after [ClickStart].
Definition first_call : Call :=
  {| endpoint := openai;
     sent := {| req_history := Some []; req_topic := Some initial_topic |} |}.

(** The history of the specification's example. *)
Definition greetings : list ChatMsg :=
  [ {| speaker := openai; content := lit "hi" |};
    {| speaker := llama; content := lit "hello" |} ].

(** The state [reset] is said to leave. *)
Definition cleared (s : State) : Prop :=
  history s = [] /\ roundCount s = 0 /\ turn s = openai
  /\ isRunning s = false /\ error s = None.

(** *** Vocabulary of the statements *)


(** The outcome is one of the route the call went to. *)
Definition addressed (c : Call) (o : Outcome) : bool :=
  match o, endpoint c with
  | ByOpenAI _, openai | ByOllama _, llama | Rejected _, _ => true
  | _, _ => false
  end.

(** The answer of the route handler the call went to, when it ran. *)
Definition answer (env : Env) (c : Call) (o : Outcome) : option Answer :=
  match o with
  | ByOpenAI up => Some (AdapterA.POST env (Body (sent c)) up)
  | ByOllama up => Some (AdapterB.POST env (Body (sent c)) up)
  | Rejected _ => None
  end.


(** The page as a user who waits for the answer before pressing Enter again
    drives it: Enter is taken only while no turn is loading, as a click on
    the start button is. *)
Definition patient (s : Session) (e : Event) : bool :=
  match e with
  | PressEnter => negb (loading (view s))
  | _ => true
  end.

Inductive reachable_patiently (env : Env) : Session -> Prop :=
| patient_mounted : reachable_patiently env mounted
| patient_step s e s' :
    reachable_patiently env s -> patient s e = true ->
    step env s e = Some s' -> reachable_patiently env s'.

(** The effects queue [setShowExport(true)] and [setIsRunning(false)] only. *)
Inductive mild : list Update -> Prop :=
| mild_nil : mild []
| mild_show us : mild us -> mild (setShowExport true :: us)
| mild_halt us : mild us -> mild (setIsRunning false :: us).


(** The counter and the history move together. *)
Definition in_step (s : State) : Prop := roundCount s = length (history s).

(** At most one call is pending, and only below the cap; [loading] says
    whether one is; a pending timer means none is. *)
Definition orderly (s : Session) : Prop :=
  in_step (view s)
  /\ length (inflight s) <= 1
  /\ (inflight s <> [] -> loading (view s) = true /\ roundCount (view s) < maxRounds)
  /\ (inflight s = [] -> loading (view s) = false)
  /\ (forall r, timer s = Some r ->
        loading (view s) = false /\ roundCount (view s) < maxRounds)
  /\ roundCount (view s) <= maxRounds.

(** *** The rest of the page *)

(** [canExport]: whether the two export buttons are rendered. *)
Definition canExport (s : State) : bool :=
  (showExport s || isFinished s) && (0 <? length (history s))%nat.

(** [history.map((m, i) => ...)]: the callback gets the index. *)
Fixpoint map_indexed {A B} (f : A -> nat -> B) (i : nat) (l : list A) : list B :=
  match l with
  | [] => []
  | x :: r => f x i :: map_indexed f (S i) r
  end.

(** The template [`${i + 1}. [${m.speaker.toUpperCase()}]: ${m.content}`]. *)
Definition numbered (m : ChatMsg) (i : nat) : jsstring :=
  dec (N.of_nat (i + 1)) ++ lit ". [" ++ toUpperCase (label (speaker m))
    ++ lit "]: " ++ content m.

(** [exportConversation("txt")]: the text the Blob is made of. *)
Definition export_txt (s : State) : jsstring :=
  lit "Tema: " ++ topic s ++ LF ++ LF
    ++ join (LF ++ LF) (map_indexed numbered 0 (history s)).

(** *** The wire between the page and the route handlers *)

(** The body of the [fetch] in [nextTurn]: [JSON.stringify({ history, topic })]
    for the render [r]. *)
Definition request_text (r : State) : jsstring :=
  JSON.stringify
    (JSON.Obj [(lit "history", JSON.Arr (map message_value (history r)));
               (lit "topic", JSON.Str (topic r))]).

(** [const { history, topic } = await req.json()] in a route handler: a
    field that is absent or null is [None].  The result is [None] when
    [req.json()] rejects, when the text is [null] (which cannot be
    destructured), or when a field is not of the type the handler declares
    for it. *)
Definition read_request (text : jsstring) : option TurnRequest :=
  match JSON.parse text with
  | None | Some JSON.Null => None
  | Some (JSON.Obj members) =>
      let history :=
        match JSON.get (lit "history") members with
        | None | Some JSON.Null => Some None
        | Some (JSON.Arr items) => option_map Some (as_messages items)
        | Some _ => None
        end in
      let topic :=
        match JSON.get (lit "topic") members with
        | None | Some JSON.Null => Some None
        | Some (JSON.Str s) => Some (Some s)
        | Some _ => None
        end in
      match history, topic with
      | Some h, Some tp => Some {| req_history := h; req_topic := tp |}
      | _, _ => None
      end
  | Some _ => Some {| req_history := None; req_topic := None |}
  end.

(** The body of a handler's answer: [NextResponse.json(...)] writes
    [JSON.stringify] of its argument. *)
Definition answer_text (a : Answer) : jsstring :=
  match a with
  | Reply msg => JSON.stringify (message_value msg)
  | Failure e => JSON.stringify (JSON.Obj [(lit "error", JSON.Str e)])
  end.

(** [(await res.json()) as ChatMsg] in [nextTurn]; [None] when the text does
    not parse or is not a message. *)
Definition read_reply (text : jsstring) : option ChatMsg :=
  match JSON.parse text with
  | Some v => as_message v
  | None => None
  end.

(** *** More vocabulary of the statements *)

(** The speaker after a history that alternates from [first]. *)
Fixpoint next_after (first : Speaker) (h : list ChatMsg) : Speaker :=
  match h with
  | [] => first
  | _ :: h' => next_after (other first) h'
  end.

Definition is_nil {A} (l : list A) : bool :=
  match l with [] => true | _ :: _ => false end.

(** The page as a user who starts a debate from a cleared page only, with no
    call pending, and resets only when no call is pending, drives it. *)
Definition calm (s : Session) (e : Event) : bool :=
  match e with
  | ClickStart | PressEnter => is_nil (history (view s)) && is_nil (inflight s)
  | ClickReset => is_nil (inflight s)
  | _ => true
  end.

Inductive reachable_calmly (env : Env) : Session -> Prop :=
| calm_mounted : reachable_calmly env mounted
| calm_step s e s' :
    reachable_calmly env s -> calm s e = true ->
    step env s e = Some s' -> reachable_calmly env s'.

(** A message as a route handler writes it: its content is not empty and
    [trim] leaves it as it is. *)
Definition tidy (m : ChatMsg) : Prop :=
  content m <> [] /\ trim (content m) = content m.

(** The render [r] shows [nextTurn] what the render [v] shows it. *)
Definition current (r v : State) : Prop :=
  turn r = turn v /\ topic r = topic v /\ history r = history v
  /\ roundCount r = roundCount v.

(** A timer is pending exactly while the session runs and no turn is
    loading, and it belongs to a render that is current. *)
Definition punctual (s : Session) : Prop :=
  in_step (view s)
  /\ (forall r, timer s = Some r ->
        isRunning (view s) = true /\ loading (view s) = false
        /\ current r (view s))
  /\ (isRunning (view s) = true -> loading (view s) = false -> timer s <> None).

(** The history alternates from the hosted model, the turn is the next
    speaker's, and the pending calls went to that speaker. *)
Definition steady (s : Session) : Prop :=
  alternates openai (history (view s)) = true
  /\ turn (view s) = next_after openai (history (view s))
  /\ (forall c, In c (inflight s) -> endpoint c = turn (view s)).

(** A run up to the cap: the debate is started and each answer arrives
    before the next turn is due; a stop while the second turn is pending. *)
Definition nine_rounds_events : list Event :=
  [ClickStart; openai_says (lit "1"); TimerFires; llama_says (lit "2");
   TimerFires; openai_says (lit "3"); TimerFires; llama_says (lit "4");
   TimerFires; openai_says (lit "5"); TimerFires; llama_says (lit "6");
   TimerFires; openai_says (lit "7"); TimerFires; llama_says (lit "8");
   TimerFires; openai_says (lit "9"); TimerFires].
Definition nine_rounds : Session := Eval vm_compute in after nine_rounds_events.

(** A call to the local model, which does not know the model asked for. *)
Definition llama_call : Call :=
  {| endpoint := llama;
     sent := {| req_history := Some []; req_topic := None |} |}.
Definition model_not_found : Outcome :=
  ByOllama (AdapterB.NotOk 404 (lit "model not found")).

(** The debate is stopped while its first turn is pending. *)
Definition stopped_early : Session :=
  Eval vm_compute in after [ClickStart; ClickStop].

Definition second_turn_events : list Event :=
  [ClickStart; openai_says (lit "hola"); TimerFires].
Definition second_turn : Session := Eval vm_compute in after second_turn_events.

End Controller.

(* ================================================================== *)
(** * Properties *)

(** ** The controller: what a render leaves untouched *)

Module ControllerFacts.
Import Controller.

#[local] Hint Constructors mild : core.

Lemma mild_app us vs : mild us -> mild vs -> mild (us ++ vs).
Proof. induction 1; simpl; auto. Qed.

Lemma mild_commit us :
  mild us -> forall s,
  let s' := commit us s in
  topic s' = topic s /\ history s' = history s /\ turn s' = turn s
  /\ loading s' = loading s /\ error s' = error s
  /\ roundCount s' = roundCount s
  /\ (isRunning s' = true -> isRunning s = true).
Proof.
  induction 1; intros s; simpl.
  - repeat split; auto.
  - apply (IHmild (setShowExport true s)).
  - destruct (IHmild (setIsRunning false s)) as (? & ? & ? & ? & ? & ? & Hr).
    repeat split; auto. intros E. apply Hr in E. discriminate E.
Qed.

Lemma effects_mild prev cur t t' us :
  effects prev cur t = (t', us) -> mild us.
Proof.
  unfold effects, auto_effect, export_effect, when. intros E.
  repeat match type of E with
         | context [if ?b then _ else _] => destruct b
         end; inversion E; subst; simpl; auto.
Qed.

(** The state a render ends in agrees with the committed handler updates on
    everything but [showExport] and [isRunning], and never turns
    [isRunning] on. *)
Lemma render_view s us calls :
  let cur := commit us (view s) in
  let v := view (render s us calls) in
  topic v = topic cur /\ history v = history cur /\ turn v = turn cur
  /\ loading v = loading cur /\ error v = error cur
  /\ roundCount v = roundCount cur
  /\ (isRunning v = true -> isRunning cur = true).
Proof.
  unfold render. set (cur := commit us (view s)).
  destruct (effects (view s) cur (timer s)) as [t1 us1] eqn:E1.
  destruct (effects cur (commit us1 cur) t1) as [t2 us2] eqn:E2.
  simpl.
  destruct (mild_commit _ (effects_mild _ _ _ _ _ E1) cur) as (a1 & a2 & a3 & a4 & a5 & a6 & a7).
  destruct (mild_commit _ (effects_mild _ _ _ _ _ E2) (commit us1 cur))
    as (b1 & b2 & b3 & b4 & b5 & b6 & b7).
  repeat split; try congruence. auto.
Qed.

Lemma render_inflight s us calls : inflight (render s us calls) = calls.
Proof.
  unfold render.
  destruct (effects _ _ _) as [t1 us1]. destruct (effects _ _ t1) as [t2 us2].
  reflexivity.
Qed.

Lemma str_eqb_refl a : str_eqb a a = true.
Proof.
  induction a as [| x a IH]; [reflexivity|].
  simpl. rewrite N.eqb_refl. exact IH.
Qed.

Lemma auto_deps_eqb_same a b :
  isRunning a = isRunning b -> loading a = loading b -> turn a = turn b ->
  roundCount a = roundCount b -> topic a = topic b ->
  auto_deps_eqb a b = true.
Proof.
  unfold auto_deps_eqb. intros -> -> -> -> ->.
  rewrite !Bool.eqb_reflx, Nat.eqb_refl, str_eqb_refl.
  destruct (turn b); reflexivity.
Qed.

Lemma export_deps_eqb_same a b :
  roundCount a = roundCount b -> history a = history b ->
  export_deps_eqb a b = true.
Proof.
  unfold export_deps_eqb, isFinished. intros -> ->.
  rewrite Bool.eqb_reflx, Nat.eqb_refl. reflexivity.
Qed.

(** [render] stops where React does: the effects of its second render queue
    no update, and a render after that would find no dependency changed. *)
Lemma second_render_is_quiet prev cur t t1 us1 :
  effects prev cur t = (t1, us1) ->
  exists t2,
    effects cur (commit us1 cur) t1 = (t2, [])
    /\ effects (commit us1 cur) (commit us1 cur) t2 = (t2, []).
Proof.
  intros E1. set (cur1 := commit us1 cur).
  destruct (mild_commit _ (effects_mild _ _ _ _ _ E1) cur)
    as (a1 & a2 & a3 & a4 & _ & a6 & a7). fold cur1 in a1, a2, a3, a4, a6, a7.
  assert (Q : forall x, effects cur1 cur1 x = (x, [])).
  { intros x. unfold effects.
    rewrite export_deps_eqb_same, auto_deps_eqb_same; reflexivity. }
  unfold effects at 1.
  rewrite (export_deps_eqb_same cur cur1) by congruence.
  destruct (auto_deps_eqb cur cur1) eqn:D.
  - exists t1. split; [reflexivity | apply Q].
  - assert (R : isRunning cur1 = false).
    { destruct (isRunning cur1) eqn:R1; [|reflexivity].
      rewrite auto_deps_eqb_same in D; try congruence.
      rewrite (a7 eq_refl). symmetry. exact R1. }
    unfold auto_effect. rewrite R. cbn [andb].
    exists None. split; [reflexivity | apply Q].
Qed.

Lemma reachable_run env es : forall s s',
  reachable env s -> run env s es = Some s' -> reachable env s'.
Proof.
  induction es as [| e es IH]; simpl; intros s s' R E.
  - injection E as <-. exact R.
  - destruct (step env s e) as [s1|] eqn:E1; [|discriminate].
    exact (IH s1 s' (reach_step env s e s1 R E1) E).
Qed.

End ControllerFacts.

(** ** The controller: counter and history *)

Module Counting.
Import Controller ControllerFacts.

Lemma in_step_start r :
  in_step r -> in_step (commit (fst (startConversation r)) r).
Proof.
  unfold in_step, startConversation, nextTurn_begin, when. simpl.
  destruct (0 <? length (history r)); simpl; auto.
Qed.

Lemma in_step_end c res s :
  in_step s -> in_step (commit (nextTurn_end c res) s).
Proof.
  unfold in_step, nextTurn_end, when. intros H.
  destruct res as [msg | message]; simpl.
  - rewrite length_app. simpl. lia.
  - destruct (0 <? length _); simpl; auto.
Qed.

Lemma in_step_render s us calls :
  in_step (commit us (view s)) -> in_step (view (render s us calls)).
Proof.
  unfold in_step. intros H.
  destruct (render_view s us calls) as (_ & Hh & _ & _ & _ & Hr & _).
  congruence.
Qed.

Lemma in_step_step env s e s' :
  in_step (view s) -> step env s e = Some s' -> in_step (view s').
Proof.
  intros H E. destruct e; simpl in E.
  - destruct (loading (view s) || negb (truthy (trim (topic (view s))))); [discriminate|].
    injection E as <-. apply in_step_render. apply (in_step_start _ H).
  - destruct (truthy (trim (topic (view s)))).
    + injection E as <-. apply in_step_render. apply (in_step_start _ H).
    + injection E as <-. exact H.
  - destruct (isRunning (view s)); [|discriminate].
    injection E as <-. apply in_step_render.
    unfold stopDebate, when. destruct (0 <? length _); exact H.
  - destruct (isRunning (view s)); [discriminate|].
    injection E as <-. apply in_step_render. reflexivity.
  - injection E as <-. apply in_step_render. exact H.
  - destruct (timer s) as [r'|]; [|discriminate].
    injection E as <-. apply in_step_render. exact H.
  - destruct (nth_error (inflight s) i) as [c|]; [|discriminate].
    destruct (fetched env c o) as [res|]; [|discriminate].
    injection E as <-. apply in_step_render. apply in_step_end. exact H.
Qed.

Lemma reachable_in_step env s : reachable env s -> in_step (view s).
Proof.
  induction 1 as [| s e s' _ IH E].
  - reflexivity.
  - exact (in_step_step env s e s' IH E).
Qed.

(** A turn that succeeds adds its message and one round. *)
Lemma success_moves_both env s i c o msg :
  nth_error (inflight s) i = Some c ->
  fetched env c o = Some (inl msg) ->
  exists s',
    step env s (Settles i o) = Some s'
    /\ history (view s') = history (view s) ++ [msg]
    /\ roundCount (view s') = roundCount (view s) + 1.
Proof.
  intros Hc Hm.
  exists (render s (nextTurn_end c (inl msg)) (remove_nth i (inflight s))).
  split; [simpl; rewrite Hc, Hm; reflexivity|].
  destruct (render_view s (nextTurn_end c (inl msg)) (remove_nth i (inflight s)))
    as (_ & Hh & _ & _ & _ & Hr & _).
  rewrite Hh, Hr. split; reflexivity.
Qed.

(** What a start does to the two: it leaves them, on an empty history, or
    clears them. *)
Lemma start_moves_both r :
  let cur := commit (fst (startConversation r)) r in
  (history r = [] /\ history cur = history r /\ roundCount cur = roundCount r)
  \/ (history cur = [] /\ roundCount cur = 0).
Proof.
  unfold startConversation, nextTurn_begin, when. cbn [fst].
  destruct (history r) as [| m h] eqn:Hh; simpl.
  - left. rewrite Hh. auto.
  - right. auto.
Qed.

Lemma start_clears_both s calls :
  in_step (view s) ->
  history (view (render s (fst (startConversation (view s))) calls)) = []
  /\ roundCount (view (render s (fst (startConversation (view s))) calls)) = 0.
Proof.
  intros Hin.
  destruct (render_view s (fst (startConversation (view s))) calls)
    as (_ & Hh & _ & _ & _ & Hr & _).
  rewrite Hh, Hr.
  destruct (start_moves_both (view s)) as [(E0 & E1 & E2) | (E1 & E2)]; [|auto].
  rewrite E1, E2. unfold in_step in Hin. rewrite Hin, E0. auto.
Qed.

Lemma reset_clears_both s calls :
  history (view (render s reset calls)) = []
  /\ roundCount (view (render s reset calls)) = 0.
Proof.
  destruct (render_view s reset calls) as (_ & Hh & _ & _ & _ & Hr & _).
  rewrite Hh, Hr. split; reflexivity.
Qed.

(** One step leaves the history and the counter as they are, or appends the
    message of a turn that succeeds and counts it, or clears both. *)
Lemma step_moves_both env s e s' :
  step env s e = Some s' ->
  (history (view s') = history (view s)
   /\ roundCount (view s') = roundCount (view s))
  \/ (exists i o c msg,
        e = Settles i o /\ nth_error (inflight s) i = Some c
        /\ fetched env c o = Some (inl msg)
        /\ history (view s') = history (view s) ++ [msg]
        /\ roundCount (view s') = roundCount (view s) + 1)
  \/ ((e = ClickReset \/ e = ClickStart \/ e = PressEnter)
      /\ history (view s') = [] /\ roundCount (view s') = 0).
Proof.
  assert (Hrender : forall s0 us calls,
            history (view (render s0 us calls)) = history (commit us (view s0))
            /\ roundCount (view (render s0 us calls)) = roundCount (commit us (view s0))).
  { intros s0 us calls.
    destruct (render_view s0 us calls) as (_ & Hh & _ & _ & _ & Hr & _). auto. }
  assert (Hstart : forall calls which,
            which = ClickStart \/ which = PressEnter ->
            let s1 := render s (fst (startConversation (view s))) calls in
            (history (view s1) = history (view s)
             /\ roundCount (view s1) = roundCount (view s))
            \/ ((which = ClickReset \/ which = ClickStart \/ which = PressEnter)
                /\ history (view s1) = [] /\ roundCount (view s1) = 0)).
  { intros calls which W s1.
    destruct (Hrender s (fst (startConversation (view s))) calls) as [Hh Hr].
    unfold s1. rewrite Hh, Hr.
    destruct (start_moves_both (view s)) as [(_ & E1 & E2) | (E1 & E2)];
      [left; auto | right]. split; [tauto | auto]. }
  destruct e; simpl.
  - destruct (loading (view s) || negb (truthy (trim (topic (view s)))));
      [discriminate|].
    intros E. injection E as <-.
    destruct (Hstart (inflight s ++ [snd (startConversation (view s))]) ClickStart
                (or_introl eq_refl)) as [H | H]; [left | right; right]; exact H.
  - destruct (truthy (trim (topic (view s)))); intros E; injection E as <-;
      [|left; split; reflexivity].
    destruct (Hstart (inflight s ++ [snd (startConversation (view s))]) PressEnter
                (or_intror eq_refl)) as [H | H]; [left | right; right]; exact H.
  - destruct (isRunning (view s)); [|discriminate].
    intros E. injection E as <-. left.
    destruct (Hrender s (stopDebate (view s)) (inflight s)) as [Hh Hr].
    rewrite Hh, Hr. unfold stopDebate, when.
    destruct (0 <? length (history (view s))); split; reflexivity.
  - destruct (isRunning (view s)); [discriminate|].
    intros E. injection E as <-. right. right.
    destruct (Hrender s reset (inflight s)) as [Hh Hr].
    rewrite Hh, Hr. split; [left; reflexivity | split; reflexivity].
  - intros E. injection E as <-. left.
    destruct (Hrender s [setTopic text] (inflight s)) as [Hh Hr].
    rewrite Hh, Hr. split; reflexivity.
  - destruct (timer s) as [r|]; [|discriminate].
    intros E. injection E as <-. left.
    match goal with
    | |- context [view (render ?a ?b ?c)] => destruct (Hrender a b c) as [Hh Hr]
    end.
    rewrite Hh, Hr. split; reflexivity.
  - destruct (nth_error (inflight s) i) as [c|] eqn:N; [|discriminate].
    destruct (fetched env c o) as [[msg | message]|] eqn:F; [| |discriminate];
      intros E; injection E as <-.
    + right. left. exists i, o, c, msg.
      destruct (Hrender s (nextTurn_end c (inl msg)) (remove_nth i (inflight s)))
        as [Hh Hr].
      rewrite Hh, Hr. repeat split; assumption.
    + left.
      destruct (Hrender s (nextTurn_end c (inr message)) (remove_nth i (inflight s)))
        as [Hh Hr].
      rewrite Hh, Hr. unfold nextTurn_end, when.
      destruct (0 <? length _); split; reflexivity.
Qed.

(** C10.  In every reachable state of a session the round counter is the
    length of the history, and the two never part:
      - a turn that succeeds appends exactly its message and adds exactly
        one round, in the same commit;
      - a step that changes the counter or the history is such a turn, or
        clears both: the counter is incremented only with an append;
      - [Reset], and a start (by the button or by Enter, on a topic that is
        not blank), leave the history empty and the counter at zero. *)
Theorem roundCount_is_history_length env s :
  reachable env s ->
  roundCount (view s) = length (history (view s))
  /\ (forall i c o msg,
        nth_error (inflight s) i = Some c ->
        fetched env c o = Some (inl msg) ->
        exists s',
          step env s (Settles i o) = Some s'
          /\ history (view s') = history (view s) ++ [msg]
          /\ length (history (view s')) = length (history (view s)) + 1
          /\ roundCount (view s') = roundCount (view s) + 1)
  /\ (forall e s',
        step env s e = Some s' ->
        (history (view s') = history (view s)
         /\ roundCount (view s') = roundCount (view s))
        \/ (exists i o c msg,
              e = Settles i o /\ nth_error (inflight s) i = Some c
              /\ fetched env c o = Some (inl msg)
              /\ history (view s') = history (view s) ++ [msg]
              /\ roundCount (view s') = roundCount (view s) + 1)
        \/ ((e = ClickReset \/ e = ClickStart \/ e = PressEnter)
            /\ history (view s') = [] /\ roundCount (view s') = 0))
  /\ (forall e s',
        e = ClickReset \/ e = ClickStart
        \/ (e = PressEnter /\ truthy (trim (topic (view s))) = true) ->
        step env s e = Some s' ->
        history (view s') = [] /\ roundCount (view s') = 0).
Proof.
  intros R. pose proof (reachable_in_step env s R) as Hin.
  split; [exact Hin|]. split; [|split].
  - intros i c o msg Hc Hm.
    destruct (success_moves_both env s i c o msg Hc Hm) as (s' & E & Hh & Hr).
    exists s'. split; [exact E|]. split; [exact Hh|]. split; [|exact Hr].
    rewrite Hh, length_app. reflexivity.
  - intros e s' E. exact (step_moves_both env s e s' E).
  - intros e s' He E.
    destruct (step_moves_both env s e s' E)
      as [[Hh Hr] | [(i & o & c & msg & Ee & _) | (_ & Hh & Hr)]].
    + (* nothing moved: a start on an empty history, whose counter is zero *)
      destruct He as [-> | [-> | [-> Ht]]].
      * simpl in E. destruct (isRunning (view s)); [discriminate|].
        injection E as <-. exact (reset_clears_both s _).
      * simpl in E.
        destruct (loading (view s) || negb (truthy (trim (topic (view s)))));
          [discriminate|].
        injection E as <-. exact (start_clears_both s _ Hin).
      * simpl in E. rewrite Ht in E. injection E as <-.
        exact (start_clears_both s _ Hin).
    + subst e. destruct He as [He | [He | [He _]]]; discriminate He.
    + auto.
Qed.

Lemma roundCount_is_history_length_witness :
  reachable no_env started
  /\ nth_error (inflight started) 0 = Some first_call
  /\ fetched no_env first_call (ByOpenAI (AdapterA.Created (Some (lit "hola"))))
     = Some (inl {| speaker := openai; content := lit "hola" |})
  /\ roundCount (view started) = length (history (view started))
  /\ (exists s',
        step no_env started (openai_says (lit "hola")) = Some s'
        /\ history (view s')
           = history (view started)
               ++ [ {| speaker := openai; content := lit "hola" |} ]
        /\ length (history (view s')) = length (history (view started)) + 1
        /\ roundCount (view s') = roundCount (view started) + 1)
  /\ roundCount (view one_round) = 1
  /\ (exists s',
        step no_env one_round ClickStart = Some s'
        /\ history (view s') = [] /\ roundCount (view s') = 0).
Proof.
  assert (R : reachable no_env started).
  { apply (reachable_run no_env [ClickStart] mounted started (reach_mounted no_env)).
    vm_compute. reflexivity. }
  assert (R1 : reachable no_env one_round).
  { apply (reachable_run no_env one_round_events mounted one_round (reach_mounted no_env)).
    vm_compute. reflexivity. }
  assert (Hc : nth_error (inflight started) 0 = Some first_call) by reflexivity.
  assert (Hm : fetched no_env first_call (ByOpenAI (AdapterA.Created (Some (lit "hola"))))
               = Some (inl {| speaker := openai; content := lit "hola" |}))
    by reflexivity.
  destruct (roundCount_is_history_length no_env started R) as (Hin & Hsucc & _ & _).
  destruct (roundCount_is_history_length no_env one_round R1) as (_ & _ & _ & Hclear).
  split; [exact R|]. split; [exact Hc|]. split; [exact Hm|]. split; [exact Hin|].
  split; [exact (Hsucc 0 first_call _ _ Hc Hm)|].
  split; [reflexivity|].
  assert (E : step no_env one_round ClickStart
              = Some (after (one_round_events ++ [ClickStart])))
    by (vm_compute; reflexivity).
  exists (after (one_round_events ++ [ClickStart])).
  split; [exact E|].
  exact (Hclear ClickStart _ (or_intror (or_introl eq_refl)) E).
Defined.

End Counting.

(** ** The controller: reset, failed turns *)

Module Turns.
Import Controller ControllerFacts.

(** C9.  Whatever the session, the render that follows a call of [reset]
    (its six setter calls committed, the effects run) shows an empty
    history, no round, the hosted model as next speaker, a stopped run and
    no error. *)
Theorem reset_clears_session s calls :
  cleared (commit reset (view s)) /\ cleared (view (render s reset calls)).
Proof.
  split; [repeat split|].
  destruct (render_view s reset calls) as (_ & Hh & Ht & _ & He & Hr & Hrun).
  unfold cleared. rewrite Hh, Ht, He, Hr. repeat split.
  destruct (isRunning (view (render s reset calls))); [|reflexivity].
  symmetry. apply Hrun. reflexivity.
Qed.

(** The [Reset] button is that call. *)
Lemma click_reset env s :
  isRunning (view s) = false ->
  step env s ClickReset = Some (render s reset (inflight s)).
Proof. intros H. simpl. rewrite H. reflexivity. Qed.


(** X20.  A turn that succeeds appends the answer, whose speaker is the route the
    call went to, passes the turn and counts one round. *)
Lemma successful_turn_appends_one env s i c o msg :
  nth_error (inflight s) i = Some c ->
  fetched env c o = Some (inl msg) ->
  exists s',
    step env s (Settles i o) = Some s'
    /\ speaker msg = endpoint c
    /\ history (view s') = history (view s) ++ [msg]
    /\ roundCount (view s') = roundCount (view s) + 1
    /\ turn (view s') = other (turn (view s)).
Proof.
  intros Hc Hm.
  exists (render s (nextTurn_end c (inl msg)) (remove_nth i (inflight s))).
  split; [simpl; rewrite Hc, Hm; reflexivity|].
  split.
  - unfold fetched in Hm.
    destruct o as [[ot|m]|[ct|st txt|m]|m]; destruct (endpoint c);
      simpl in Hm; try discriminate; injection Hm as <-; reflexivity.
  - destruct (render_view s (nextTurn_end c (inl msg)) (remove_nth i (inflight s)))
      as (_ & Hh & Ht & _ & _ & Hr & _).
    rewrite Hh, Ht, Hr. repeat split.
Qed.

Lemma successful_turn_appends_one_witness :
  exists s',
    step no_env started (openai_says (lit "hola")) = Some s'
    /\ speaker {| speaker := openai; content := lit "hola" |} = endpoint first_call
    /\ history (view s')
       = history (view started) ++ [ {| speaker := openai; content := lit "hola" |} ]
    /\ roundCount (view s') = roundCount (view started) + 1
    /\ turn (view s') = other (turn (view started)).
Proof.
  apply (successful_turn_appends_one no_env started 0 first_call
           (ByOpenAI (AdapterA.Created (Some (lit "hola"))))
           {| speaker := openai; content := lit "hola" |});
    reflexivity.
Defined.



End Turns.

(** ** The controller: two runs that leave the intended course *)

Module Runs.
Import Controller ControllerFacts.

(** C1.  A restart between two turns.  [startConversation] calls [reset]
    and then the [nextTurn] of the render it belongs to, where [turn] is
    still the local model: the first call of the new run goes to
    [/api/llama-turn], its answer is appended to the emptied history, and the
    updater flips the [turn] that [reset] had just set back.  The reachable
    history then starts with the local model and holds it twice in a row. *)
Theorem restart_breaks_alternation :
  exists s,
    run no_env mounted restart_events = Some s
    /\ reachable no_env s
    /\ map speaker (history (view s)) = [llama; llama]
    /\ alternates openai (history (view s)) = false.
Proof.
  exists (after restart_events).
  assert (E : run no_env mounted restart_events = Some (after restart_events))
    by (vm_compute; reflexivity).
  split; [exact E|]. split.
  - exact (reachable_run no_env restart_events mounted _
             (reach_mounted no_env) E).
  - split; vm_compute; reflexivity.
Qed.

(** C2.  Enter pressed again while the first turn is pending.  The key
    handler starts a turn whatever [loading] is, so eleven calls are pending
    at once; each answer adds a round, and the eleventh takes the counter past
    [maxRounds]. *)
Theorem enter_key_exceeds_maxRounds :
  exists s,
    run no_env mounted enter_events = Some s
    /\ reachable no_env s
    /\ roundCount (view s) = 11
    /\ maxRounds < roundCount (view s).
Proof.
  exists (after enter_events).
  assert (E : run no_env mounted enter_events = Some (after enter_events))
    by (vm_compute; reflexivity).
  split; [exact E|]. split.
  - exact (reachable_run no_env enter_events mounted _
             (reach_mounted no_env) E).
  - split; vm_compute; [reflexivity | lia].
Qed.

End Runs.

(** ** The controller: the round cap *)

Module Cap.
Import Controller ControllerFacts.

Lemma auto_deps_same p c :
  auto_deps_eqb p c = true ->
  isRunning p = isRunning c /\ loading p = loading c
  /\ roundCount p = roundCount c.
Proof.
  unfold auto_deps_eqb. rewrite !andb_true_iff.
  intros [[[[H1 H2] _] H3] _].
  apply Bool.eqb_prop in H1, H2. apply Nat.eqb_eq in H3. auto.
Qed.

Lemma auto_effect_arms r0 t us :
  auto_effect r0 = (Some t, us) ->
  isRunning r0 = true /\ loading r0 = false /\ roundCount r0 < maxRounds.
Proof.
  unfold auto_effect.
  destruct (isRunning r0 && negb (loading r0) && (roundCount r0 <? maxRounds)) eqn:B.
  - intros _. rewrite !andb_true_iff in B. destruct B as [[B1 B2] B3].
    apply negb_true_iff in B2. apply Nat.ltb_lt in B3. auto.
  - destruct (isRunning r0 && (maxRounds <=? roundCount r0)); discriminate.
Qed.

Lemma auto_effect_mild r0 t us : auto_effect r0 = (t, us) -> mild us.
Proof.
  unfold auto_effect. intros E.
  repeat match type of E with
         | context [if ?b then _ else _] => destruct b
         end; inversion E; subst; auto using mild.
Qed.

Lemma export_effect_mild r0 : mild (export_effect r0).
Proof. unfold export_effect, when. destruct (_ && _); auto using mild. Qed.

Lemma mild_stays_halted us s :
  mild us -> isRunning s = false -> isRunning (commit us s) = false.
Proof.
  intros M H. destruct (mild_commit us M s) as (_ & _ & _ & _ & _ & _ & Hr).
  destruct (isRunning (commit us s)); [|reflexivity].
  rewrite <- H. symmetry. apply Hr. reflexivity.
Qed.

(** After the effects a run that is still on is below the cap, if that was
    so in the render before. *)
Lemma render_below_cap s us calls :
  (isRunning (view s) = true -> roundCount (view s) < maxRounds) ->
  isRunning (view (render s us calls)) = true ->
  roundCount (view (render s us calls)) < maxRounds.
Proof.
  intros Hprev.
  destruct (render_view s us calls) as (_ & _ & _ & _ & _ & Hr & Hrun).
  rewrite Hr. clear Hr. intros Hv. specialize (Hrun Hv).
  revert Hv. unfold render.
  set (prev := view s) in *. set (cur := commit us prev) in *.
  unfold effects at 1.
  destruct (auto_deps_eqb prev cur) eqn:D.
  - intros _. destruct (auto_deps_same prev cur D) as (H1 & _ & H3).
    rewrite <- H3. apply Hprev. congruence.
  - destruct (auto_effect cur) as [t1 au] eqn:A.
    unfold auto_effect in A. rewrite Hrun in A. cbn [andb] in A.
    destruct (negb (loading cur) && (roundCount cur <? maxRounds)) eqn:B1.
    + intros _. apply andb_true_iff in B1. apply Nat.ltb_lt. tauto.
    + destruct (maxRounds <=? roundCount cur) eqn:B2.
      * injection A as <- <-.
        set (ex := if export_deps_eqb prev cur then [] else export_effect cur).
        assert (Hhalt : isRunning (commit (ex ++ [setIsRunning false; setShowExport true]) cur) = false).
        { unfold commit. rewrite fold_left_app. reflexivity. }
        destruct (effects cur _ None) as [t2 us2] eqn:E2. simpl.
        intros Hv. rewrite (mild_stays_halted us2 _ (effects_mild _ _ _ _ _ E2) Hhalt) in Hv.
        discriminate Hv.
      * intros _. apply Nat.leb_gt in B2. exact B2.
Qed.

Lemma step_below_cap env s e s' :
  (isRunning (view s) = true -> roundCount (view s) < maxRounds) ->
  step env s e = Some s' ->
  isRunning (view s') = true -> roundCount (view s') < maxRounds.
Proof.
  intros H E. destruct e; simpl in E.
  - destruct (_ || _); [discriminate|]. injection E as <-.
    apply render_below_cap. exact H.
  - destruct (truthy _); injection E as <-; [|exact H].
    apply render_below_cap. exact H.
  - destruct (isRunning (view s)) eqn:R; [|discriminate]. injection E as <-.
    apply render_below_cap. rewrite R. exact H.
  - destruct (isRunning (view s)) eqn:R; [discriminate|]. injection E as <-.
    apply render_below_cap. rewrite R. exact H.
  - injection E as <-. apply render_below_cap. exact H.
  - destruct (timer s); [|discriminate]. injection E as <-.
    apply (render_below_cap {| view := view s; timer := None; inflight := inflight s |}).
    exact H.
  - destruct (nth_error _ _) as [c|]; [|discriminate].
    destruct (fetched env c o); [|discriminate]. injection E as <-.
    apply render_below_cap. exact H.
Qed.

(** The second half of C2 holds on every run: once the effects have run, a
    session that is running has not reached [maxRounds]; a commit that
    brings the counter to the cap while running is followed by
    [setIsRunning(false)]. *)
Lemma running_below_cap env s :
  reachable env s -> isRunning (view s) = true -> roundCount (view s) < maxRounds.
Proof.
  induction 1 as [| s e s' _ IH E].
  - discriminate.
  - exact (step_below_cap env s e s' IH E).
Qed.

End Cap.

(** ** The controller: one turn at a time, when Enter is not pressed during
    a turn *)

Module Patient.
Import Controller ControllerFacts Cap.

Lemma effects_timer prev cur t t' us :
  effects prev cur t = (t', us) ->
  forall r, t' = Some r ->
  (t = Some r /\ auto_deps_eqb prev cur = true)
  \/ (isRunning cur = true /\ loading cur = false /\ roundCount cur < maxRounds).
Proof.
  unfold effects. destruct (auto_deps_eqb prev cur).
  - intros E r ->. injection E as -> _. left. auto.
  - destruct (auto_effect cur) as [t1 au] eqn:A. intros E r ->.
    injection E as -> _. right. exact (auto_effect_arms cur r au A).
Qed.

(** The timer a render leaves pending is the one it found, and then nothing
    the timer depends on has changed, or one armed for a running session
    that is not loading and is below the cap. *)
Lemma render_timer s us calls r :
  timer (render s us calls) = Some r ->
  (timer s = Some r /\ auto_deps_eqb (view s) (commit us (view s)) = true)
  \/ (loading (commit us (view s)) = false
      /\ roundCount (commit us (view s)) < maxRounds).
Proof.
  unfold render. set (prev := view s). set (cur := commit us prev).
  destruct (effects prev cur (timer s)) as [t1 us1] eqn:E1.
  destruct (effects cur (commit us1 cur) t1) as [t2 us2] eqn:E2.
  simpl. intros ->.
  destruct (effects_timer _ _ _ _ _ E2 r eq_refl) as [[-> _] | (_ & Hl & Hr)].
  - destruct (effects_timer _ _ _ _ _ E1 r eq_refl) as [[Ht D] | (_ & Hl & Hr)].
    + left. auto.
    + right. auto.
  - right.
    destruct (mild_commit us1 (effects_mild _ _ _ _ _ E1) cur)
      as (_ & _ & _ & Hl' & _ & Hr' & _).
    rewrite <- Hl', <- Hr'. auto.
Qed.

Lemma orderly_render s us calls :
  (forall r, timer s = Some r ->
     loading (view s) = false /\ roundCount (view s) < maxRounds) ->
  let cur := commit us (view s) in
  in_step cur ->
  length calls <= 1 ->
  (calls <> [] -> loading cur = true /\ roundCount cur < maxRounds) ->
  (calls = [] -> loading cur = false) ->
  roundCount cur <= maxRounds ->
  orderly (render s us calls).
Proof.
  intros Ht cur H1 H2 H3 H4 H6.
  destruct (render_view s us calls) as (_ & _ & _ & Hl & _ & Hr & _).
  fold cur in Hl, Hr.
  unfold orderly. rewrite render_inflight, Hl, Hr.
  split; [apply Counting.in_step_render; exact H1|].
  repeat split; try tauto.
  - destruct (render_timer s us calls r H) as [[Hs D] | [Hl' _]]; [|exact Hl'].
    destruct (auto_deps_same _ _ D) as (_ & E2 & _). fold cur in E2.
    rewrite <- E2. apply (Ht r Hs).
  - destruct (render_timer s us calls r H) as [[Hs D] | [_ Hr']]; [|exact Hr'].
    destruct (auto_deps_same _ _ D) as (_ & _ & E3). fold cur in E3.
    rewrite <- E3. apply (Ht r Hs).
Qed.

Lemma start_fields r :
  let cur := commit (fst (startConversation r)) r in
  loading cur = true
  /\ (roundCount cur = 0 \/ (history r = [] /\ roundCount cur = roundCount r)).
Proof.
  unfold startConversation, nextTurn_begin, when. simpl.
  destruct (history r) as [| m h]; simpl; auto.
Qed.

Lemma orderly_start s c :
  orderly s -> loading (view s) = false ->
  orderly (render s (fst (startConversation (view s))) (inflight s ++ [c])).
Proof.
  intros (H1 & H2 & H3 & H4 & H5 & H6) Hl.
  assert (Hi : inflight s = []).
  { destruct (inflight s) as [| c0 l] eqn:Ei; [reflexivity|].
    assert (Hne : c0 :: l <> []) by discriminate.
    destruct (H3 Hne) as [Hl' _]. congruence. }
  rewrite Hi. simpl app.
  destruct (start_fields (view s)) as [Sl Sr].
  assert (Hz : roundCount (commit (fst (startConversation (view s))) (view s)) = 0).
  { destruct Sr as [Sr | [Sh Sr]]; [exact Sr|].
    rewrite Sr. unfold in_step in H1. rewrite H1, Sh. reflexivity. }
  apply orderly_render.
  - exact H5.
  - apply Counting.in_step_start. exact H1.
  - simpl. lia.
  - intros _. rewrite Hz. unfold maxRounds. split; [exact Sl | lia].
  - intros Hc. discriminate Hc.
  - rewrite Hz. lia.
Qed.

Lemma alone_is_first {A} (l : list A) i c :
  length l <= 1 -> nth_error l i = Some c -> remove_nth i l = [].
Proof.
  destruct l as [| c0 [| c1 l]]; simpl; intros L N; try lia.
  - destruct i; discriminate N.
  - destruct i as [| j]; [reflexivity|]. destruct j; discriminate N.
Qed.

Lemma end_fields c res s :
  let cur := commit (nextTurn_end c res) s in
  loading cur = false /\ roundCount cur <= S (roundCount s).
Proof.
  unfold nextTurn_end, when. destruct res as [msg | message]; simpl.
  - split; [reflexivity | lia].
  - destruct (0 <? length _); simpl; split; auto.
Qed.

Lemma orderly_step env s e s' :
  orderly s -> patient s e = true -> step env s e = Some s' -> orderly s'.
Proof.
  intros J P E. pose proof J as (H1 & H2 & H3 & H4 & H5 & H6).
  assert (Hidle : loading (view s) = false -> inflight s = []).
  { intros L. destruct (inflight s) as [| c0 l] eqn:Ei; [reflexivity|].
    assert (Hne : c0 :: l <> []) by discriminate.
    destruct (H3 Hne) as [Hl' _]. congruence. }
  destruct e; simpl in E, P.
  - destruct (loading (view s)) eqn:L; [discriminate|]. simpl in E.
    destruct (negb _); [discriminate|]. injection E as <-.
    apply (orderly_start s _ J L).
  - apply negb_true_iff in P.
    destruct (truthy _); injection E as <-; [|exact J].
    apply (orderly_start s _ J P).
  - destruct (isRunning (view s)); [|discriminate]. injection E as <-.
    assert (F : loading (commit (stopDebate (view s)) (view s)) = loading (view s)
                /\ roundCount (commit (stopDebate (view s)) (view s)) = roundCount (view s)
                /\ history (commit (stopDebate (view s)) (view s)) = history (view s)).
    { unfold stopDebate, when. destruct (0 <? length _); simpl; auto. }
    destruct F as (F1 & F2 & F3).
    apply orderly_render; try rewrite F1; try rewrite F2; auto.
    unfold in_step. rewrite F2, F3. exact H1.
  - destruct (isRunning (view s)); [discriminate|]. injection E as <-.
    apply orderly_render.
    + exact H5.
    + reflexivity.
    + exact H2.
    + intros Hne. simpl. unfold maxRounds. split; [apply (H3 Hne) | lia].
    + exact H4.
    + simpl. lia.
  - injection E as <-. apply orderly_render; auto.
  - destruct (timer s) as [r|] eqn:T; [|discriminate]. injection E as <-.
    destruct (H5 r eq_refl) as [Hl Hr].
    rewrite (Hidle Hl). simpl app.
    apply orderly_render.
    + discriminate.
    + exact H1.
    + simpl. lia.
    + intros _. split; [reflexivity | exact Hr].
    + intros Hc. discriminate Hc.
    + exact H6.
  - destruct (nth_error (inflight s) i) as [c|] eqn:N; [|discriminate].
    destruct (fetched env c o) as [res|]; [|discriminate]. injection E as <-.
    assert (Hne : inflight s <> []).
    { intros Hc. rewrite Hc in N. destruct i; discriminate N. }
    destruct (H3 Hne) as [Hl Hr].
    rewrite (alone_is_first _ _ _ H2 N).
    destruct (end_fields c res (view s)) as [El Er].
    apply orderly_render.
    + intros r T. destruct (H5 r T) as [Hl' _]. congruence.
    + apply Counting.in_step_end. exact H1.
    + simpl. lia.
    + intros Hc. contradiction Hc. reflexivity.
    + intros _. exact El.
    + lia.
Qed.

(** What C2 says of the counter holds when Enter is taken only while the
    start button is enabled: the counter never exceeds [maxRounds]. *)
Lemma patient_roundCount_bounded env s :
  reachable_patiently env s -> roundCount (view s) <= maxRounds.
Proof.
  intros R.
  assert (J : orderly s).
  { induction R as [| s e s' _ IH P E].
    - unfold orderly, in_step. simpl. unfold maxRounds.
      repeat split; try discriminate; try lia; congruence.
    - exact (orderly_step env s e s' IH P E). }
  apply J.
Qed.

End Patient.

(** ** The adapters *)

Module Adapters.

Lemma trimStart_split s :
  exists pre, s = pre ++ trimStart s /\ forallb is_space pre = true.
Proof.
  induction s as [| c r [pre [E F]]]; simpl.
  - exists []. auto.
  - destruct (is_space c) eqn:C.
    + exists (c :: pre). simpl. rewrite C, F. split; [congruence | reflexivity].
    + exists []. auto.
Qed.

Lemma trimStart_head s c r : trimStart s = c :: r -> is_space c = false.
Proof.
  induction s as [| d s IH]; simpl; [discriminate|].
  destruct (is_space d) eqn:D; [exact IH|].
  intros E. injection E as <- _. exact D.
Qed.

(** [trim] removes white space from both ends and nothing else, and what it
    leaves neither starts nor ends with white space. *)
Lemma trim_spec t :
  exists pre post,
    t = pre ++ trim t ++ post
    /\ forallb is_space pre = true /\ forallb is_space post = true
    /\ (forall c r, trim t = c :: r -> is_space c = false)
    /\ (forall c r, trim t = r ++ [c] -> is_space c = false).
Proof.
  unfold trim, trimEnd.
  destruct (trimStart_split t) as [pre [E1 F1]].
  destruct (trimStart_split (rev (trimStart t))) as [tsop [E2 F2]].
  set (core := trimStart (rev (trimStart t))) in *.
  exists pre, (rev tsop).
  assert (E3 : trimStart t = rev core ++ rev tsop).
  { rewrite <- rev_app_distr, <- E2, rev_involutive. reflexivity. }
  split; [rewrite <- E3; exact E1|].
  split; [exact F1|].
  split; [rewrite forallb_forall in *; intros x Hx; apply F2, in_rev; exact Hx|].
  split.
  - intros c r Hc.
    (* the first unit of [rev core] is the first unit of [trimStart t] *)
    rewrite Hc in E3. simpl in E3.
    exact (trimStart_head t c _ E3).
  - intros c r Hc.
    assert (Hcore : core = c :: rev r).
    { rewrite <- (rev_involutive core), Hc, rev_app_distr. reflexivity. }
    exact (trimStart_head _ c _ Hcore).
Qed.

(** C7.  Whatever text the model returns, each adapter answers with a
    message (never a failure) whose content is the text with [trim] applied,
    or the placeholder when nothing is left; the same placeholder stands for
    a reply without text, and it is not empty. *)
Theorem reply_is_trimmed_or_placeholder env r t :
  let expected := match trim t with [] => placeholder | _ :: _ => trim t end in
  AdapterA.POST env (Body r) (AdapterA.Created (Some t))
    = Reply {| speaker := openai; content := expected |}
  /\ AdapterB.POST env (Body r) (AdapterB.Answered (Some t))
    = Reply {| speaker := llama; content := expected |}
  /\ AdapterA.POST env (Body r) (AdapterA.Created None)
    = Reply {| speaker := openai; content := placeholder |}
  /\ AdapterB.POST env (Body r) (AdapterB.Answered None)
    = Reply {| speaker := llama; content := placeholder |}
  /\ (trim t = [] ->
      AdapterA.POST env (Body r) (AdapterA.Created (Some t))
        = Reply {| speaker := openai; content := placeholder |}
      /\ AdapterB.POST env (Body r) (AdapterB.Answered (Some t))
        = Reply {| speaker := llama; content := placeholder |})
  /\ placeholder = lit "(sin respuesta)" /\ placeholder <> [].
Proof.
  simpl. unfold AdapterA.reply_text, AdapterB.reply_text, or_else. simpl.
  destruct (trim t) eqn:T; simpl; repeat split; try discriminate; auto;
    intros; discriminate.
Qed.

Lemma reply_is_trimmed_or_placeholder_witness :
  trim (lit "  ") = []
  /\ AdapterA.POST Controller.no_env
       (Body {| req_history := Some []; req_topic := None |})
       (AdapterA.Created (Some (lit "  ")))
     = Reply {| speaker := openai; content := placeholder |}
  /\ AdapterB.POST Controller.no_env
       (Body {| req_history := Some []; req_topic := None |})
       (AdapterB.Answered (Some (lit "  ")))
     = Reply {| speaker := llama; content := placeholder |}.
Proof.
  assert (T : trim (lit "  ") = []) by reflexivity.
  split; [exact T|].
  exact (proj1 (proj2 (proj2 (proj2 (proj2
    (reply_is_trimmed_or_placeholder Controller.no_env
       {| req_history := Some []; req_topic := None |} (lit "  ")))))) T).
Defined.

(** C5.  With an empty history and a topic, the request adapter A builds has
    one user-role message, and its content contains the topic as it was
    given, between the quotes of the opening prompt. *)
Theorem opening_prompt_contains_topic env X :
  let r := {| req_history := Some []; req_topic := Some X |} in
  (exists m, nth_error (AdapterA.input (AdapterA.request env r)) 1 = Some m
             /\ Wire.role m = user)
  /\ forall m, In m (AdapterA.input (AdapterA.request env r)) ->
       Wire.role m = user ->
       includes (Wire.content m) X
       /\ Wire.content m
          = lit "Inicia una conversaci" ++ [243%N]
              ++ lit "n con otro LLM sobre este tema: " ++ DQUOTE ++ X
              ++ DQUOTE ++ lit ".".
Proof.
  simpl. split.
  - eexists. split; reflexivity.
  - intros m [<- | [<- | []]]; simpl; [discriminate|]. intros _.
    split; [|reflexivity].
    unfold AdapterA.user_prompt. simpl.
    exists (lit "Inicia una conversaci" ++ [243%N]
              ++ lit "n con otro LLM sobre este tema: " ++ DQUOTE),
           (DQUOTE ++ lit ".").
    rewrite <- !app_assoc. reflexivity.
Qed.

Lemma opening_prompt_contains_topic_witness :
  exists m,
    In m (AdapterA.input (AdapterA.request Controller.no_env
            {| req_history := Some []; req_topic := Some (lit "X") |}))
    /\ Wire.role m = user
    /\ includes (Wire.content m) (lit "X").
Proof.
  exists {| Wire.role := user;
            Wire.content := AdapterA.user_prompt
              {| req_history := Some []; req_topic := Some (lit "X") |} |}.
  assert (I : In {| Wire.role := user;
                    Wire.content := AdapterA.user_prompt
                      {| req_history := Some []; req_topic := Some (lit "X") |} |}
                (AdapterA.input (AdapterA.request Controller.no_env
                   {| req_history := Some []; req_topic := Some (lit "X") |})))
    by (simpl; auto).
  split; [exact I|]. split; [reflexivity|].
  exact (proj1 (proj2 (opening_prompt_contains_topic Controller.no_env (lit "X"))
                  _ I eq_refl)).
Defined.

Lemma upper_labels :
  toUpperCase (label openai) = lit "OPENAI"
  /\ toUpperCase (label llama) = lit "LLAMA".
Proof. split; reflexivity. Qed.

(** C6.  The message list adapter B builds holds the system instruction,
    then one entry for each message of the history, in the order of the
    history, then the closing instruction.  The entry of a message has the
    assistant role, and its content is the speaker's label in capitals, a
    colon and a space, then the content of the message. *)
Theorem transcript_entries_in_order env history topic :
  let messages := AdapterB.messages
        (AdapterB.request env {| req_history := Some history; req_topic := topic |}) in
  length messages = length history + 2
  /\ forall i m, nth_error history i = Some m ->
       nth_error messages (S i)
       = Some {| Wire.role := assistant;
                 Wire.content :=
                   match speaker m with
                   | openai => lit "OPENAI"
                   | llama => lit "LLAMA"
                   end ++ lit ": " ++ content m |}.
Proof.
  simpl. split.
  - rewrite length_app, length_map. simpl. lia.
  - intros i m H.
    rewrite nth_error_app1 by (rewrite length_map; apply nth_error_Some; congruence).
    rewrite nth_error_map, H. simpl. unfold labelled.
    destruct (speaker m); reflexivity.
Qed.

Lemma transcript_entries_in_order_witness :
  map Wire.content
    (AdapterB.messages
       (AdapterB.request Controller.no_env
          {| req_history := Some Controller.greetings; req_topic := None |}))
  = [AdapterB.system_prompt; lit "OPENAI: hi"; lit "LLAMA: hello";
     AdapterB.closing_prompt]
  /\ nth_error
       (AdapterB.messages
          (AdapterB.request Controller.no_env
             {| req_history := Some Controller.greetings; req_topic := None |})) 2
     = Some {| Wire.role := assistant; Wire.content := lit "LLAMA: hello" |}.
Proof.
  split; [reflexivity|].
  exact (proj2 (transcript_entries_in_order Controller.no_env
                  Controller.greetings None)
           1 {| speaker := llama; content := lit "hello" |} eq_refl).
Defined.

(** C8.  Adapter B does not look at the topic: two bodies with the same
    history give the same outbound request and, for the same behaviour of the
    local service, the same answer; so a turn sent to it ends the same way
    whatever topic the controller put in the body. *)
Theorem adapterB_ignores_topic env history topic1 topic2 :
  let r1 := {| req_history := history; req_topic := topic1 |} in
  let r2 := {| req_history := history; req_topic := topic2 |} in
  AdapterB.request env r1 = AdapterB.request env r2
  /\ (forall up, AdapterB.POST env (Body r1) up = AdapterB.POST env (Body r2) up)
  /\ (forall o,
        Controller.fetched env {| Controller.endpoint := llama; Controller.sent := r1 |} o
        = Controller.fetched env {| Controller.endpoint := llama; Controller.sent := r2 |} o).
Proof.
  split; [reflexivity|]. split; [reflexivity|].
  intros [up | up | message]; reflexivity.
Qed.

(** Adapter A does look at it. *)
Lemma adapterA_reads_topic env :
  AdapterA.request env {| req_history := Some []; req_topic := Some (lit "a") |}
  <> AdapterA.request env {| req_history := Some []; req_topic := Some (lit "b") |}.
Proof. intros E. injection E as E. discriminate E. Qed.

End Adapters.

(** ** JSON: what is written is read back *)

Module JSONFacts.
Import JSON.

Lemma hex_value_digit d : (d < 16)%N -> hex_value (hex_digit d) = Some d.
Proof.
  intros H. unfold hex_digit, hex_value.
  destruct (d <? 10)%N eqn:D.
  - apply N.ltb_lt in D.
    replace ((48 <=? 48 + d) && (48 + d <=? 57))%N with true.
    + f_equal. lia.
    + symmetry. apply andb_true_iff. split; apply N.leb_le; lia.
  - apply N.ltb_ge in D.
    replace ((48 <=? 87 + d) && (87 + d <=? 57))%N with false.
    + replace ((97 <=? 87 + d) && (87 + d <=? 102))%N with true.
      * f_equal. lia.
      * symmetry. apply andb_true_iff. split; apply N.leb_le; lia.
    + symmetry. apply andb_false_iff. right. apply N.leb_gt. lia.
Qed.

Lemma hex4_escape c :
  (c < 65536)%N ->
  hex4 (hex_digit ((c / 4096) mod 16)) (hex_digit ((c / 256) mod 16))
       (hex_digit ((c / 16) mod 16)) (hex_digit (c mod 16)) = Some c.
Proof.
  intros H. unfold hex4.
  rewrite !hex_value_digit by (apply N.mod_lt; discriminate).
  f_equal. zify. Z.to_euclidean_division_equations. lia.
Qed.

(** An escape sequence is read as the unit it was written for. *)
Lemma parse_unicode_escape c tail :
  (c < 65536)%N ->
  parse_chars (unicode_escape c ++ tail) = cons_fst c (parse_chars tail).
Proof.
  intros H. unfold unicode_escape. cbn [app parse_chars].
  change (92 =? 34)%N with false. change (92 =? 92)%N with true.
  change (117 =? 117)%N with true. cbv iota.
  rewrite (hex4_escape c H). reflexivity.
Qed.

Lemma surrogate_is_16_bit c :
  is_lead c || is_trail c = true -> (c < 65536)%N /\ (32 <= c)%N /\ c <> 34%N /\ c <> 92%N.
Proof.
  unfold is_lead, is_trail. rewrite orb_true_iff, !andb_true_iff, !N.leb_le. lia.
Qed.

Lemma parse_plain c tail :
  (32 <= c)%N -> c <> 34%N -> c <> 92%N ->
  parse_chars (c :: tail) = cons_fst c (parse_chars tail).
Proof.
  intros H1 H2 H3. cbn [parse_chars].
  apply N.eqb_neq in H2, H3. rewrite H2, H3.
  replace (c <? 32)%N with false by (symmetry; apply N.ltb_ge; exact H1).
  reflexivity.
Qed.

Lemma parse_quote_unit c tail :
  is_lead c = false ->
  parse_chars (quote_unit c ++ tail) = cons_fst c (parse_chars tail).
Proof.
  intros L. unfold quote_unit.
  destruct (c =? 8)%N eqn:E8; [apply N.eqb_eq in E8; subst; reflexivity|].
  destruct (c =? 9)%N eqn:E9; [apply N.eqb_eq in E9; subst; reflexivity|].
  destruct (c =? 10)%N eqn:E10; [apply N.eqb_eq in E10; subst; reflexivity|].
  destruct (c =? 12)%N eqn:E12; [apply N.eqb_eq in E12; subst; reflexivity|].
  destruct (c =? 13)%N eqn:E13; [apply N.eqb_eq in E13; subst; reflexivity|].
  destruct (c =? 34)%N eqn:E34; [apply N.eqb_eq in E34; subst; reflexivity|].
  destruct (c =? 92)%N eqn:E92; [apply N.eqb_eq in E92; subst; reflexivity|].
  rewrite L, orb_false_r.
  destruct ((c <? 32)%N || is_trail c) eqn:U.
  - apply parse_unicode_escape.
    apply orb_true_iff in U. destruct U as [U | U].
    + apply N.ltb_lt in U. lia.
    + apply (surrogate_is_16_bit c). rewrite U. apply orb_true_r.
  - apply orb_false_iff in U. destruct U as [U _]. apply N.ltb_ge in U.
    apply N.eqb_neq in E34, E92. apply parse_plain; assumption.
Qed.

(** QuoteJSONString, then the reading of a string literal: the string. *)
Lemma parse_quote_body s : forall rest,
  parse_chars (quote_body s ++ 34%N :: rest) = Some (s, rest).
Proof.
  assert (G : forall n s, length s <= n -> forall rest,
             parse_chars (quote_body s ++ 34%N :: rest) = Some (s, rest)).
  { induction n as [| n IH]; intros [| c r] L rest; simpl in L; try lia;
      try reflexivity.
    cbn [quote_body].
    destruct (is_lead c) eqn:Lc.
    - assert (S16 := surrogate_is_16_bit c).
      rewrite Lc in S16. destruct (S16 eq_refl) as (C1 & C2 & C3 & C4).
      destruct r as [| d r'].
      + rewrite parse_unicode_escape by exact C1. reflexivity.
      + destruct (is_trail d) eqn:Td.
        * assert (T16 := surrogate_is_16_bit d).
          rewrite Td, orb_true_r in T16. destruct (T16 eq_refl) as (_ & D2 & D3 & D4).
          cbn [app]. rewrite parse_plain by assumption.
          rewrite parse_plain by assumption.
          rewrite IH by (simpl in L; lia). reflexivity.
        * rewrite <- app_assoc, parse_unicode_escape by exact C1.
          rewrite IH by lia. reflexivity.
    - rewrite <- app_assoc, parse_quote_unit by exact Lc.
      rewrite IH by lia. reflexivity. }
  intros rest. apply (G (length s)). lia.
Qed.


(** *** Values *)

Lemma blank_app a b : blank a -> blank b -> blank (a ++ b).
Proof. unfold blank. rewrite forallb_app. intros -> ->. reflexivity. Qed.

Lemma blank_newline gap indent : blank gap -> blank indent -> blank (newline gap indent).
Proof. unfold newline. destruct gap; auto. Qed.

Lemma skip_blank w l : blank w -> skip_ws (w ++ l) = skip_ws l.
Proof.
  unfold blank. induction w as [| c w IH]; simpl; [reflexivity|].
  rewrite andb_true_iff. intros [-> H]. exact (IH H).
Qed.

Lemma skip_solid c l : is_ws c = false -> skip_ws (c :: l) = c :: l.
Proof. simpl. intros ->. reflexivity. Qed.

Lemma serialize_opens gap indent v :
  exists c tail, serialize gap indent v = c :: tail /\ opens c.
Proof.
  unfold opens.
  destruct v as [| [|] | s | [| x items] | [| [k x] members]]; simpl;
    eexists; eexists; (split; [reflexivity|]); tauto.
Qed.

Lemma opens_solid c : opens c -> is_ws c = false /\ (c =? 93)%N = false.
Proof. unfold opens. intros H. decompose [or] H; subst; split; reflexivity. Qed.

Lemma expect_here c l : expect [c] (c :: l) = Some l.
Proof. simpl. rewrite N.eqb_refl. reflexivity. Qed.

Lemma expect_elsewhere c d l : (d =? c)%N = false -> expect [c] (d :: l) = None.
Proof. simpl. rewrite N.eqb_sym. intros ->. reflexivity. Qed.

Lemma parse_elements_join gap inner items :
  Forall reads_back items -> items <> [] -> blank gap -> blank inner ->
  forall w0 w1 w2 rest fuel,
    blank w0 -> blank w1 -> blank w2 ->
    list_sum (map (fun x => S (size x)) items) <= fuel ->
    parse_elements fuel
      (w0 ++ join (44%N :: w1) (map (serialize gap inner) items)
          ++ w2 ++ 93%N :: rest)
    = Some (items, rest).
Proof.
  intros F. induction F as [| v items Hv F IH]; [congruence|].
  intros _ Bg Bi w0 w1 w2 rest fuel B0 B1 B2 L.
  destruct fuel as [| f]; [simpl in L; lia|].
  cbn [parse_elements]. simpl in L.
  destruct items as [| v2 more].
  - cbn [map join].
    rewrite (Hv gap inner w0 (w2 ++ 93%N :: rest) f Bg Bi B0) by lia.
    rewrite (skip_blank w2 _ B2), skip_solid by reflexivity.
    rewrite expect_here. reflexivity.
  - change (join (44%N :: w1) (map (serialize gap inner) (v :: v2 :: more)))
      with (serialize gap inner v ++ (44%N :: w1)
              ++ join (44%N :: w1) (map (serialize gap inner) (v2 :: more))).
    rewrite <- !app_assoc.
    rewrite (Hv gap inner w0 _ f Bg Bi B0) by lia.
    cbn [app]. rewrite skip_solid by reflexivity.
    rewrite expect_elsewhere by reflexivity. rewrite expect_here.
    rewrite (IH ltac:(discriminate) Bg Bi w1 w1 w2 rest f B1 B1 B2)
      by (simpl in *; lia).
    reflexivity.
Qed.


Lemma colon_blank gap : exists w, colon gap = 58%N :: w /\ blank w.
Proof. destruct gap; simpl; eexists; split; reflexivity. Qed.

Lemma parse_members_join gap inner members :
  Forall (fun kv => reads_back (snd kv)) members -> members <> [] ->
  blank gap -> blank inner ->
  forall w0 w1 w2 rest fuel,
    blank w0 -> blank w1 -> blank w2 ->
    list_sum (map (fun kv => match kv with (_, x) => S (size x) end) members) <= fuel ->
    parse_members fuel
      (w0 ++ join (44%N :: w1) (map (member_text gap inner) members)
          ++ w2 ++ 125%N :: rest)
    = Some (members, rest).
Proof.
  intros F. induction F as [| [k v] members Hv F IH]; [congruence|].
  intros _ Bg Bi w0 w1 w2 rest fuel B0 B1 B2 L.
  destruct fuel as [| f]; [simpl in L; lia|].
  cbn [parse_members]. simpl in L, Hv.
  destruct (colon_blank gap) as [wc [Ec Bc]].
  assert (Head : forall tail,
    match expect [34%N] (skip_ws (w0 ++ (member_text gap inner (k, v) ++ tail))) with
    | None => None
    | Some r =>
        match parse_chars r with
        | None => None
        | Some (k', r1) =>
            match expect [58%N] (skip_ws r1) with
            | None => None
            | Some r2 => Some (k', parse_value f r2)
            end
        end
    end = Some (k, Some (v, tail))).
  { intros tail. rewrite (skip_blank w0 _ B0).
    unfold member_text, quote. rewrite Ec.
    cbn [app]. rewrite skip_solid by reflexivity. rewrite expect_here.
    rewrite <- !app_assoc. cbn [app]. rewrite parse_quote_body.
    rewrite skip_solid by reflexivity. rewrite expect_here.
    rewrite <- app_assoc.
    rewrite (Hv gap inner wc tail f Bg Bi Bc) by lia. reflexivity. }
  destruct members as [| kv2 more].
  - cbn [map join].
    specialize (Head (w2 ++ 125%N :: rest)).
    destruct (expect [34%N] _) as [r|]; [|discriminate].
    destruct (parse_chars r) as [[k' r1]|]; [|discriminate].
    destruct (expect [58%N] _) as [r2|]; [|discriminate].
    injection Head as -> ->.
    rewrite (skip_blank w2 _ B2), skip_solid by reflexivity.
    rewrite expect_here. reflexivity.
  - change (join (44%N :: w1) (map (member_text gap inner) ((k, v) :: kv2 :: more)))
      with (member_text gap inner (k, v) ++ (44%N :: w1)
              ++ join (44%N :: w1) (map (member_text gap inner) (kv2 :: more))).
    rewrite <- !app_assoc.
    specialize (Head ((44%N :: w1)
              ++ join (44%N :: w1) (map (member_text gap inner) (kv2 :: more))
              ++ w2 ++ 125%N :: rest)).
    destruct (expect [34%N] _) as [r|]; [|discriminate].
    destruct (parse_chars r) as [[k' r1]|]; [|discriminate].
    destruct (expect [58%N] _) as [r2|]; [|discriminate].
    injection Head as -> ->.
    cbn [app]. rewrite skip_solid by reflexivity.
    rewrite expect_elsewhere by reflexivity. rewrite expect_here.
    match goal with
    | |- match ?q with _ => _ end = _ =>
        replace q with (Some (kv2 :: more, rest)); [reflexivity|]
    end.
    symmetry. apply (IH ltac:(discriminate) Bg Bi w1 w1 w2 rest f B1 B1 B2).
    simpl in *; lia.
Qed.

(** Every value is read back. *)
Lemma all_read_back v : reads_back v.
Proof.
  induction v as [| b | s | items IH | members IH] using value_ind;
    intros gap indent pre rest fuel Bg Bi Bp L;
    (destruct fuel as [| f]; [simpl in L; lia|]); cbn [parse_value];
    rewrite (skip_blank pre _ Bp).
  - reflexivity.
  - destruct b; reflexivity.
  - cbn [serialize]. unfold quote. cbn [app]. rewrite skip_solid by reflexivity.
    change (34 =? 34)%N with true. cbv iota.
    rewrite <- app_assoc. cbn [app]. rewrite parse_quote_body. reflexivity.
  - destruct items as [| x items]; [reflexivity|].
    set (items1 := x :: items) in *.
    assert (Bn : blank (newline gap (indent ++ gap)))
      by (apply blank_newline; [|apply blank_app]; assumption).
    assert (Bn' : blank (newline gap indent)) by (apply blank_newline; assumption).
    change (serialize gap indent (Arr items1))
      with ([91%N] ++ newline gap (indent ++ gap)
              ++ join (44%N :: newline gap (indent ++ gap))
                   (map (serialize gap (indent ++ gap)) items1)
              ++ newline gap indent ++ [93%N]).
    cbn [app]. rewrite skip_solid by reflexivity.
    change (91 =? 34)%N with false. change (91 =? 91)%N with true. cbv iota.
    rewrite <- !app_assoc. cbn [app].
    assert (P := parse_elements_join gap (indent ++ gap) items1 IH
                   ltac:(discriminate) Bg (blank_app _ _ Bi Bg)
                   (newline gap (indent ++ gap)) (newline gap (indent ++ gap))
                   (newline gap indent) rest f Bn Bn Bn').
    rewrite P by (simpl in L; simpl; lia).
    destruct (serialize_opens gap (indent ++ gap) x) as (c & tail & Ec & Oc).
    destruct (opens_solid c Oc) as [Sc Nc].
    rewrite (skip_blank _ _ Bn). unfold items1. cbn [map].
    replace (skip_ws (join _ _ ++ _)) with
      (c :: tail ++ match items with
                    | [] => []
                    | _ :: _ => (44%N :: newline gap (indent ++ gap))
                         ++ join (44%N :: newline gap (indent ++ gap))
                              (map (serialize gap (indent ++ gap)) items)
                    end ++ newline gap indent ++ 93%N :: rest).
    + rewrite expect_elsewhere by exact Nc. reflexivity.
    + symmetry. destruct items; cbn [join map]; rewrite Ec;
        rewrite <- ?app_assoc; cbn [app]; rewrite skip_solid by exact Sc;
        reflexivity.
  - destruct members as [| [k x] members]; [reflexivity|].
    set (members1 := (k, x) :: members) in *.
    assert (Bn : blank (newline gap (indent ++ gap)))
      by (apply blank_newline; [|apply blank_app]; assumption).
    assert (Bn' : blank (newline gap indent)) by (apply blank_newline; assumption).
    change (serialize gap indent (Obj members1))
      with ([123%N] ++ newline gap (indent ++ gap)
              ++ join (44%N :: newline gap (indent ++ gap))
                   (map (member_text gap (indent ++ gap)) members1)
              ++ newline gap indent ++ [125%N]).
    cbn [app]. rewrite skip_solid by reflexivity.
    change (123 =? 34)%N with false. change (123 =? 91)%N with false.
    change (123 =? 123)%N with true. cbv iota.
    rewrite <- !app_assoc. cbn [app].
    assert (P := parse_members_join gap (indent ++ gap) members1 IH
                   ltac:(discriminate) Bg (blank_app _ _ Bi Bg)
                   (newline gap (indent ++ gap)) (newline gap (indent ++ gap))
                   (newline gap indent) rest f Bn Bn Bn').
    rewrite P by (simpl in L; simpl; lia).
    rewrite (skip_blank _ _ Bn). unfold members1. cbn [map].
    replace (skip_ws (join _ _ ++ _)) with
      (34%N :: (quote_body k ++ [34%N]) ++ colon gap
         ++ serialize gap (indent ++ gap) x
         ++ match members with
            | [] => []
            | _ :: _ => (44%N :: newline gap (indent ++ gap))
                 ++ join (44%N :: newline gap (indent ++ gap))
                      (map (member_text gap (indent ++ gap)) members)
            end ++ newline gap indent ++ 125%N :: rest).
    + rewrite expect_elsewhere by reflexivity. reflexivity.
    + symmetry. destruct members; cbn [join map]; unfold member_text at 1, quote;
        rewrite <- ?app_assoc; cbn [app]; rewrite skip_solid by reflexivity;
        rewrite <- ?app_assoc; reflexivity.
Qed.

Lemma join_length sep parts :
  sep <> [] ->
  list_sum (map (@length N) parts) + length parts <= S (length (join sep parts)).
Proof.
  intros Hs. induction parts as [| p [| q parts] IH]; simpl in *; try lia.
  rewrite !length_app. destruct sep; [congruence|]. simpl in *. lia.
Qed.

Lemma size_le_length v : forall gap indent,
  size v <= length (serialize gap indent v).
Proof.
  induction v as [| b | s | items IH | members IH] using value_ind;
    intros gap indent.
  - simpl. lia.
  - destruct b; simpl; lia.
  - simpl. lia.
  - destruct items as [| x items]; [simpl; lia|].
    set (items1 := x :: items) in *.
    change (serialize gap indent (Arr items1))
      with ([91%N] ++ newline gap (indent ++ gap)
              ++ join (44%N :: newline gap (indent ++ gap))
                   (map (serialize gap (indent ++ gap)) items1)
              ++ newline gap indent ++ [93%N]).
    cbn [size]. rewrite !length_app. cbn [length].
    assert (J := join_length (44%N :: newline gap (indent ++ gap))
                   (map (serialize gap (indent ++ gap)) items1) ltac:(discriminate)).
    rewrite length_map, map_map in J.
    assert (M : list_sum (map (fun x => S (size x)) items1)
                <= list_sum (map (fun x => length (serialize gap (indent ++ gap) x)) items1)
                   + length items1).
    { clear J. induction IH as [| y l Hy _ IHl]; simpl; [lia|].
      specialize (Hy gap (indent ++ gap)). lia. }
    lia.
  - destruct members as [| kx members]; [simpl; lia|].
    set (members1 := kx :: members) in *.
    change (serialize gap indent (Obj members1))
      with ([123%N] ++ newline gap (indent ++ gap)
              ++ join (44%N :: newline gap (indent ++ gap))
                   (map (member_text gap (indent ++ gap)) members1)
              ++ newline gap indent ++ [125%N]).
    cbn [size]. rewrite !length_app. cbn [length].
    assert (J := join_length (44%N :: newline gap (indent ++ gap))
                   (map (member_text gap (indent ++ gap)) members1) ltac:(discriminate)).
    rewrite length_map, map_map in J.
    assert (M : list_sum (map (fun kv => match kv with (_, x) => S (size x) end) members1)
                <= list_sum (map (fun kv => length (member_text gap (indent ++ gap) kv)) members1)
                   + length members1).
    { clear J. induction IH as [| [k y] l Hy _ IHl]; simpl; [lia|].
      specialize (Hy gap (indent ++ gap)). simpl in Hy.
      rewrite !length_app. lia. }
    lia.
Qed.

Lemma blank_spaces n : blank (repeat 32%N n).
Proof. induction n; [reflexivity | exact IHn]. Qed.

(** [JSON.parse(JSON.stringify(v, null, n))] and [JSON.parse(JSON.stringify(v))]
    are [v]. *)
Lemma parse_serialize gap v : blank gap -> parse (serialize gap [] v) = Some v.
Proof.
  intros Bg. unfold parse.
  assert (R := all_read_back v gap [] [] [] (S (length (serialize gap [] v)))
                 Bg eq_refl eq_refl).
  cbn [app] in R. rewrite app_nil_r in R.
  rewrite R; [reflexivity|].
  pose proof (size_le_length v gap []). lia.
Qed.

Lemma parse_stringify_indent n v : parse (stringify_indent n v) = Some v.
Proof. apply parse_serialize, blank_spaces. Qed.

Lemma parse_stringify v : parse (stringify v) = Some v.
Proof. apply parse_serialize. reflexivity. Qed.

End JSONFacts.

(** ** The structured export *)

Module ExportFacts.
Import Controller.

Lemma as_message_value m : as_message (message_value m) = Some m.
Proof. destruct m as [[|] c]; reflexivity. Qed.

Lemma as_messages_values h : as_messages (map message_value h) = Some h.
Proof.
  induction h as [| m h IH]; [reflexivity|].
  cbn [map as_messages]. rewrite as_message_value, IH. reflexivity.
Qed.

Lemma as_session_value tp h : as_session (session_value tp h) = Some (tp, h).
Proof.
  unfold session_value, as_session. cbn [JSON.get lit str_eqb].
  simpl. rewrite as_messages_values. reflexivity.
Qed.

(** C4.  Whatever the topic and the history of the state, the text
    [exportConversation("json")] writes is read back by [JSON.parse] as the
    object it was written from, and the fields [topic] and [history] of that
    object are the topic and the history, message by message. *)
Theorem export_json_reads_back s :
  JSON.parse (export_json s) = Some (session_value (topic s) (history s))
  /\ read_back (export_json s) = Some (topic s, history s).
Proof.
  assert (P : JSON.parse (export_json s)
              = Some (session_value (topic s) (history s)))
    by apply JSONFacts.parse_stringify_indent.
  split; [exact P|].
  unfold read_back. rewrite P. apply as_session_value.
Qed.

End ExportFacts.

(** ** Instances *)

Module Instances.
Import Controller ControllerFacts.

Lemma one_round_reachable : reachable no_env one_round.
Proof.
  apply (reachable_run no_env one_round_events mounted one_round (reach_mounted no_env)).
  vm_compute. reflexivity.
Qed.

Lemma second_turn_reachable : reachable no_env second_turn.
Proof.
  apply (reachable_run no_env second_turn_events mounted second_turn (reach_mounted no_env)).
  vm_compute. reflexivity.
Qed.

Lemma one_round_patiently : reachable_patiently no_env one_round.
Proof.
  apply (patient_step no_env started (openai_says (lit "hola")) one_round).
  - apply (patient_step no_env mounted ClickStart started (patient_mounted no_env)).
    + reflexivity.
    + vm_compute. reflexivity.
  - reflexivity.
  - vm_compute. reflexivity.
Qed.

Lemma one_round_calmly : reachable_calmly no_env one_round.
Proof.
  apply (calm_step no_env started (openai_says (lit "hola")) one_round).
  - apply (calm_step no_env mounted ClickStart started (calm_mounted no_env)).
    + reflexivity.
    + vm_compute. reflexivity.
  - reflexivity.
  - vm_compute. reflexivity.
Qed.

End Instances.

(* ================================================================== *)
(** * Further properties *)

(** ** The controller: when the next turn is scheduled *)

Module Scheduling.
Import Controller ControllerFacts Cap.

Lemma auto_deps_all p c :
  auto_deps_eqb p c = true ->
  isRunning p = isRunning c /\ loading p = loading c /\ turn p = turn c
  /\ roundCount p = roundCount c /\ topic p = topic c.
Proof.
  unfold auto_deps_eqb. rewrite !andb_true_iff.
  intros [[[[H1 H2] H3] H4] H5].
  apply Bool.eqb_prop in H1, H2. apply Nat.eqb_eq in H4.
  repeat split; auto.
  - destruct (turn p), (turn c); (reflexivity || discriminate).
  - revert H5. generalize (topic c). generalize (topic p).
    induction l as [| x l IH]; intros [| y l'] H; simpl in H;
      try reflexivity; try discriminate.
    apply andb_true_iff in H. destruct H as [Hx Hl].
    apply N.eqb_eq in Hx. subst. f_equal. exact (IH l' Hl).
Qed.

(** The updates of the export effect show the buttons and nothing else. *)
Lemma export_only_shows prev cur s :
  let ex := if export_deps_eqb prev cur then [] else export_effect cur in
  commit ex s = s \/ commit ex s = setShowExport true s.
Proof.
  simpl. unfold export_effect, when.
  destruct (export_deps_eqb prev cur); [left; reflexivity|].
  destruct (_ && _); [right | left]; reflexivity.
Qed.

(** The four ways the effects of a render can go. *)
Lemma effects_cases prev cur t t1 us1 :
  effects prev cur t = (t1, us1) ->
  (auto_deps_eqb prev cur = true /\ t1 = t
   /\ isRunning (commit us1 cur) = isRunning cur)
  \/ (auto_deps_eqb prev cur = false /\ t1 = Some cur
      /\ isRunning cur = true /\ loading cur = false
      /\ roundCount cur < maxRounds /\ isRunning (commit us1 cur) = true)
  \/ (auto_deps_eqb prev cur = false /\ t1 = None
      /\ isRunning (commit us1 cur) = false)
  \/ (auto_deps_eqb prev cur = false /\ t1 = None
      /\ isRunning (commit us1 cur) = isRunning cur
      /\ (isRunning cur = true -> loading cur = true)).
Proof.
  unfold effects.
  assert (X : forall s, isRunning
            (commit (if export_deps_eqb prev cur then [] else export_effect cur) s)
            = isRunning s).
  { intros s. destruct (export_only_shows prev cur s) as [-> | ->]; reflexivity. }
  destruct (auto_deps_eqb prev cur).
  - intros E. injection E as <- <-. left. auto.
  - destruct (auto_effect cur) as [t' au] eqn:A. intros E. injection E as <- <-.
    right. unfold auto_effect in A.
    destruct (isRunning cur && negb (loading cur) && (roundCount cur <? maxRounds)) eqn:B1.
    + injection A as <- <-. left. rewrite app_nil_r, X.
      rewrite !andb_true_iff in B1. destruct B1 as [[R L] C].
      apply negb_true_iff in L. apply Nat.ltb_lt in C. repeat split; auto.
    + destruct (isRunning cur && (maxRounds <=? roundCount cur)) eqn:B2.
      * injection A as <- <-. right. left. repeat split.
        unfold commit. rewrite fold_left_app. reflexivity.
      * injection A as <- <-. right. right. rewrite app_nil_r, X.
        repeat split. intros R. rewrite R in B1, B2. cbn [andb] in B1, B2.
        apply Nat.leb_gt in B2. apply Nat.ltb_lt in B2. rewrite B2, andb_true_r in B1.
        apply negb_false_iff in B1. exact B1.
Qed.

(** The second round of effects queues nothing; it keeps the timer of the
    first, unless the first halted the run. *)
Lemma second_render_timer prev cur t t1 us1 :
  effects prev cur t = (t1, us1) ->
  effects cur (commit us1 cur) t1 = (t1, [])
  \/ (effects cur (commit us1 cur) t1 = (None, [])
      /\ isRunning (commit us1 cur) = false).
Proof.
  intros E1. set (cur1 := commit us1 cur).
  destruct (mild_commit _ (effects_mild _ _ _ _ _ E1) cur)
    as (a1 & a2 & a3 & a4 & _ & a6 & a7). fold cur1 in a1, a2, a3, a4, a6, a7.
  unfold effects.
  rewrite (export_deps_eqb_same cur cur1) by congruence.
  destruct (auto_deps_eqb cur cur1) eqn:D; [left; reflexivity|].
  assert (R : isRunning cur1 = false).
  { destruct (isRunning cur1) eqn:R1; [|reflexivity].
    rewrite auto_deps_eqb_same in D; try congruence.
    rewrite (a7 eq_refl). symmetry. exact R1. }
  right. unfold auto_effect. rewrite R. cbn [andb]. auto.
Qed.

(** What a render leaves: the state after the first round of effects, and
    the timer of that round unless the round halted the run. *)
Lemma render_shape s us calls :
  let cur := commit us (view s) in
  exists t1 us1,
    effects (view s) cur (timer s) = (t1, us1)
    /\ view (render s us calls) = commit us1 cur
    /\ (timer (render s us calls) = t1
        \/ (timer (render s us calls) = None
            /\ isRunning (commit us1 cur) = false)).
Proof.
  intros cur. unfold render. fold cur.
  destruct (effects (view s) cur (timer s)) as [t1 us1] eqn:E1.
  exists t1, us1. split; [reflexivity|].
  destruct (second_render_timer _ _ _ _ _ E1) as [E2 | [E2 R]];
    rewrite E2; simpl; auto.
Qed.

(** What a step is, event by event. *)
Lemma step_inv env s e s' :
  step env s e = Some s' ->
  match e with
  | ClickStart =>
      loading (view s) = false /\ truthy (trim (topic (view s))) = true
      /\ s' = render s (fst (startConversation (view s)))
                (inflight s ++ [snd (startConversation (view s))])
  | PressEnter =>
      (truthy (trim (topic (view s))) = true
       /\ s' = render s (fst (startConversation (view s)))
                 (inflight s ++ [snd (startConversation (view s))]))
      \/ (truthy (trim (topic (view s))) = false /\ s' = s)
  | ClickStop =>
      isRunning (view s) = true /\ s' = render s (stopDebate (view s)) (inflight s)
  | ClickReset =>
      isRunning (view s) = false /\ s' = render s reset (inflight s)
  | TypeTopic text => s' = render s [setTopic text] (inflight s)
  | TimerFires =>
      exists r, timer s = Some r
        /\ s' = render {| view := view s; timer := None; inflight := inflight s |}
                  (fst (nextTurn_begin r)) (inflight s ++ [snd (nextTurn_begin r)])
  | Settles i o =>
      exists c res, nth_error (inflight s) i = Some c
        /\ fetched env c o = Some res
        /\ s' = render s (nextTurn_end c res) (remove_nth i (inflight s))
  end.
Proof.
  destruct e; simpl.
  - destruct (loading (view s)); [discriminate|]. cbn [orb].
    destruct (truthy (trim (topic (view s)))); [|discriminate]. cbn [negb].
    intros E. injection E as <-. repeat split.
  - destruct (truthy (trim (topic (view s)))); intros E; injection E as <-;
      [left | right]; split; reflexivity.
  - destruct (isRunning (view s)); [|discriminate].
    intros E. injection E as <-. split; reflexivity.
  - destruct (isRunning (view s)); [discriminate|].
    intros E. injection E as <-. split; reflexivity.
  - intros E. injection E as <-. reflexivity.
  - destruct (timer s) as [r|]; [|discriminate].
    intros E. injection E as <-. exists r. split; reflexivity.
  - destruct (nth_error (inflight s) i) as [c|]; [|discriminate].
    destruct (fetched env c o) as [res|] eqn:F; [|discriminate].
    intros E. injection E as <-. exists c, res. repeat split. exact F.
Qed.

(** A render does not halt a run that is below the cap. *)
Lemma render_keeps_running s us calls :
  isRunning (commit us (view s)) = true ->
  roundCount (commit us (view s)) < maxRounds ->
  isRunning (view (render s us calls)) = true.
Proof.
  intros Hrun Hlt.
  destruct (render_shape s us calls) as (t1 & us1 & E1 & Ev & _).
  rewrite Ev. set (cur := commit us (view s)) in *.
  assert (X : isRunning
            (commit (if export_deps_eqb (view s) cur then [] else export_effect cur) cur)
            = true).
  { destruct (export_only_shows (view s) cur cur) as [-> | ->]; exact Hrun. }
  unfold effects in E1.
  destruct (auto_deps_eqb (view s) cur).
  - injection E1 as _ <-. exact X.
  - unfold auto_effect in E1. rewrite Hrun in E1. cbn [andb] in E1.
    replace (maxRounds <=? roundCount cur) with false in E1
      by (symmetry; apply Nat.leb_gt; exact Hlt).
    destruct (negb (loading cur) && (roundCount cur <? maxRounds));
      injection E1 as _ <-; rewrite app_nil_r; exact X.
Qed.

Lemma punctual_render s us calls :
  let prev := view s in
  let cur := commit us prev in
  in_step cur ->
  (forall r, timer s = Some r ->
     isRunning prev = true /\ loading prev = false /\ current r prev) ->
  (auto_deps_eqb prev cur = true -> history cur = history prev) ->
  (auto_deps_eqb prev cur = true -> isRunning prev = true ->
   loading prev = false -> timer s <> None) ->
  punctual (render s us calls).
Proof.
  intros prev cur Hin Hold Hhist Hprog.
  destruct (render_shape s us calls) as (t1 & us1 & E1 & Ev & Et).
  fold prev cur in E1, Ev, Et.
  destruct (mild_commit _ (effects_mild _ _ _ _ _ E1) cur)
    as (a1 & a2 & a3 & a4 & _ & a6 & _).
  unfold punctual. rewrite Ev.
  split; [unfold in_step in *; congruence|].
  destruct (effects_cases _ _ _ _ _ E1) as
    [(D & -> & R) | [(D & -> & Rc & Lc & _ & R) | [(D & -> & R) | (D & -> & R & W)]]].
  - destruct (auto_deps_all _ _ D) as (d1 & d2 & d3 & d4 & d5).
    specialize (Hhist D). specialize (Hprog D).
    split.
    + intros r Hr. destruct Et as [Et | [Et _]]; [|congruence].
      rewrite Et in Hr. destruct (Hold r Hr) as (h1 & h2 & h3 & h4 & h5 & h6).
      unfold current. repeat split; congruence.
    + intros Hrun Hload. destruct Et as [Et | [_ Et]]; [|congruence].
      rewrite Et. apply Hprog; congruence.
  - split.
    + intros r Hr. destruct Et as [Et | [Et _]]; [|congruence].
      rewrite Et in Hr. injection Hr as <-.
      unfold current. repeat split; congruence.
    + intros _ _. destruct Et as [Et | [_ Et]]; congruence.
  - split.
    + intros r Hr. destruct Et as [Et | [Et _]]; congruence.
    + intros Hrun. congruence.
  - split.
    + intros r Hr. destruct Et as [Et | [Et _]]; congruence.
    + intros Hrun Hload. rewrite R in Hrun. specialize (W Hrun). congruence.
Qed.

Lemma eqb_succ n : (n =? n + 1) = false.
Proof. apply Nat.eqb_neq. lia. Qed.

Lemma punctual_step env s e s' :
  punctual s -> step env s e = Some s' -> punctual s'.
Proof.
  intros (Hin & Hold & Hprog) E.
  assert (Hkeep : forall us,
            history (commit us (view s)) = history (view s) ->
            roundCount (commit us (view s)) = roundCount (view s) ->
            in_step (commit us (view s))
            /\ (auto_deps_eqb (view s) (commit us (view s)) = true ->
                history (commit us (view s)) = history (view s))).
  { intros us Hh Hr. unfold in_step in *. split; congruence. }
  assert (Hclear : forall us,
            history (commit us (view s)) = [] ->
            roundCount (commit us (view s)) = 0 ->
            in_step (commit us (view s))
            /\ (auto_deps_eqb (view s) (commit us (view s)) = true ->
                history (commit us (view s)) = history (view s))).
  { intros us Hh Hr. unfold in_step in *. split; [rewrite Hh, Hr; reflexivity|].
    intros D. destruct (auto_deps_all _ _ D) as (_ & _ & _ & d4 & _).
    rewrite Hh. symmetry. apply length_zero_iff_nil. congruence. }
  assert (Hstart : forall c,
            punctual (render s (fst (startConversation (view s))) (inflight s ++ [c]))).
  { intros c.
    assert (K : in_step (commit (fst (startConversation (view s))) (view s))
                /\ (auto_deps_eqb (view s)
                      (commit (fst (startConversation (view s))) (view s)) = true ->
                    history (commit (fst (startConversation (view s))) (view s))
                    = history (view s))).
    { unfold startConversation, nextTurn_begin, when. cbn [fst].
      destruct (history (view s)) as [| m h] eqn:Hh.
      - apply Hkeep; simpl; auto.
      - apply Hclear; reflexivity. }
    destruct K as [K1 K2].
    apply punctual_render; auto. }
  apply step_inv in E. destruct e.
  - destruct E as (_ & _ & ->). apply Hstart.
  - destruct E as [[_ ->] | [_ ->]]; [apply Hstart|].
    unfold punctual. auto.
  - destruct E as [_ ->].
    assert (K : history (commit (stopDebate (view s)) (view s)) = history (view s)
                /\ roundCount (commit (stopDebate (view s)) (view s)) = roundCount (view s)).
    { unfold stopDebate, when. destruct (0 <? length _); simpl; auto. }
    destruct (Hkeep _ (proj1 K) (proj2 K)) as [K1 K2].
    apply punctual_render; auto.
  - destruct E as [_ ->].
    destruct (Hclear reset eq_refl eq_refl) as [K1 K2].
    apply punctual_render; auto.
  - subst s'.
    destruct (Hkeep [setTopic text] eq_refl eq_refl) as [K1 K2].
    apply punctual_render; auto.
  - destruct E as (r & T & ->).
    destruct (Hkeep [setLoading true; setError None] eq_refl eq_refl) as [K1 K2].
    apply punctual_render; simpl; auto.
    + discriminate.
    + intros D _ Hload. destruct (auto_deps_all _ _ D) as (_ & d2 & _).
      simpl in d2. congruence.
  - destruct E as (c & res & _ & _ & ->).
    apply punctual_render; auto.
    + apply Counting.in_step_end. exact Hin.
    + intros D. destruct (auto_deps_all _ _ D) as (_ & _ & _ & d4 & _).
      revert d4. unfold nextTurn_end, when.
      destruct res as [msg | message]; simpl.
      * lia.
      * destruct (0 <? length _); reflexivity.
Qed.

Lemma reachable_punctual env s : reachable env s -> punctual s.
Proof.
  induction 1 as [| s e s' _ IH E].
  - unfold punctual, in_step. simpl. repeat split; discriminate.
  - exact (punctual_step env s e s' IH E).
Qed.

(** X4.  The next turn is scheduled exactly while the session is running and no
    turn is loading; then the counter is below the cap. *)
Theorem next_turn_scheduled_iff env s :
  reachable env s ->
  (timer s <> None <-> isRunning (view s) = true /\ loading (view s) = false)
  /\ (timer s <> None -> roundCount (view s) < maxRounds).
Proof.
  intros R. destruct (reachable_punctual env s R) as (_ & Hold & Hprog).
  assert (Fwd : timer s <> None ->
                isRunning (view s) = true /\ loading (view s) = false).
  { destruct (timer s) as [r|]; [|congruence].
    intros _. destruct (Hold r eq_refl) as (h1 & h2 & _). auto. }
  split; [split; [exact Fwd | intros [h1 h2]; auto]|].
  intros T. apply (running_below_cap env s R). apply (Fwd T).
Qed.

(** X5.  When the timer fires, the call that starts goes to the speaker whose
    turn it is and carries the history and the topic of the page as they are
    then, whatever render armed the timer. *)
Theorem scheduled_turn_is_current env s r :
  reachable env s -> timer s = Some r ->
  exists s',
    step env s TimerFires = Some s'
    /\ inflight s'
       = inflight s
           ++ [ {| endpoint := turn (view s);
                   sent := {| req_history := Some (history (view s));
                              req_topic := Some (topic (view s)) |} |} ]
    /\ loading (view s') = true
    /\ timer s' = None.
Proof.
  intros R T. destruct (reachable_punctual env s R) as (_ & Hold & _).
  destruct (Hold r T) as (_ & Hl & c1 & c2 & c3 & _).
  simpl. rewrite T. eexists. split; [reflexivity|].
  rewrite render_inflight.
  unfold nextTurn_begin. rewrite c1, c2, c3. split; [reflexivity|].
  set (s0 := {| view := view s; timer := None; inflight := inflight s |}).
  set (us := [setLoading true; setError None]).
  destruct (render_view s0 us (inflight s ++
     [{| endpoint := turn (view s);
         sent := {| req_history := Some (history (view s));
                    req_topic := Some (topic (view s)) |} |}]))
    as (_ & _ & _ & Hload & _).
  split; [exact Hload|].
  destruct (render_shape s0 us (inflight s ++
     [{| endpoint := turn (view s);
         sent := {| req_history := Some (history (view s));
                    req_topic := Some (topic (view s)) |} |}]))
    as (t1 & us1 & E1 & _ & Et).
  destruct Et as [Et | [Et _]]; [|exact Et]. rewrite Et.
  destruct (effects_cases _ _ _ _ _ E1) as
    [(D & -> & _) | [(_ & _ & _ & Lc & _) | [(_ & -> & _) | (_ & -> & _)]]];
    try reflexivity.
  discriminate Lc.
Qed.

Lemma next_turn_scheduled_iff_witness :
  reachable no_env one_round
  /\ timer one_round <> None
  /\ isRunning (view one_round) = true /\ loading (view one_round) = false
  /\ roundCount (view one_round) < maxRounds.
Proof.
  pose proof Instances.one_round_reachable as R.
  destruct (next_turn_scheduled_iff no_env one_round R) as [[Fwd _] Cap].
  assert (T : timer one_round <> None) by discriminate.
  destruct (Fwd T) as [H1 H2].
  split; [exact R|]. split; [exact T|]. split; [exact H1|]. split; [exact H2|].
  exact (Cap T).
Defined.

Lemma scheduled_turn_is_current_witness :
  reachable no_env one_round
  /\ timer one_round = Some (view one_round)
  /\ exists s',
       step no_env one_round TimerFires = Some s'
       /\ inflight s'
          = inflight one_round
              ++ [ {| endpoint := turn (view one_round);
                      sent := {| req_history := Some (history (view one_round));
                                 req_topic := Some (topic (view one_round)) |} |} ]
       /\ loading (view s') = true
       /\ timer s' = None.
Proof.
  pose proof Instances.one_round_reachable as R.
  assert (T : timer one_round = Some (view one_round)) by reflexivity.
  split; [exact R|]. split; [exact T|].
  exact (scheduled_turn_is_current no_env one_round (view one_round) R T).
Defined.

(** *** The cap, on every run and on patient runs *)

(** X1.  A session that is running has not reached the cap: the commit that
    brings the counter to [maxRounds] while running is followed by
    [setIsRunning(false)], on every run. *)
Theorem running_session_is_below_cap env s :
  reachable env s -> isRunning (view s) = true -> roundCount (view s) < maxRounds.
Proof. exact (running_below_cap env s). Qed.

Lemma running_session_is_below_cap_witness :
  reachable no_env one_round /\ isRunning (view one_round) = true
  /\ roundCount (view one_round) < maxRounds.
Proof.
  pose proof Instances.one_round_reachable as R.
  assert (H : isRunning (view one_round) = true) by reflexivity.
  split; [exact R|]. split; [exact H|].
  exact (running_session_is_below_cap no_env one_round R H).
Defined.

(** X2.  When Enter is taken only while no turn is loading, at most one call is
    pending at a time and the counter never exceeds [maxRounds]. *)
Theorem one_turn_at_a_time env s :
  reachable_patiently env s ->
  roundCount (view s) <= maxRounds /\ length (inflight s) <= 1
  /\ (loading (view s) = true <-> inflight s <> []).
Proof.
  intros R.
  assert (J : orderly s).
  { induction R as [| s e s' _ IH P E].
    - unfold orderly, in_step. simpl. unfold maxRounds.
      repeat split; try discriminate; try lia; congruence.
    - exact (Patient.orderly_step env s e s' IH P E). }
  destruct J as (_ & J2 & J3 & J4 & _ & J6).
  split; [exact J6|]. split; [exact J2|]. split.
  - intros L N. rewrite (J4 N) in L. discriminate L.
  - intros N. apply (J3 N).
Qed.

Lemma one_turn_at_a_time_witness :
  reachable_patiently no_env one_round
  /\ roundCount (view one_round) <= maxRounds /\ length (inflight one_round) <= 1
  /\ (loading (view one_round) = true <-> inflight one_round <> []).
Proof.
  pose proof Instances.one_round_patiently as R.
  split; [exact R|]. exact (one_turn_at_a_time no_env one_round R).
Defined.

End Scheduling.

(** ** The controller: stopping, resetting and finishing *)

Module Halting.
Import Controller ControllerFacts Cap Scheduling.

(** A render whose handler leaves the run halted leaves no timer, if the
    run was on before or no timer was pending. *)
Lemma render_halted s us calls :
  isRunning (commit us (view s)) = false ->
  isRunning (view s) = true \/ timer s = None ->
  timer (render s us calls) = None
  /\ isRunning (view (render s us calls)) = false.
Proof.
  intros Hc Hs.
  destruct (render_shape s us calls) as (t1 & us1 & E1 & Ev & Et).
  rewrite Ev.
  destruct (effects_cases _ _ _ _ _ E1) as
    [(D & -> & R) | [(_ & _ & Rc & _) | [(_ & -> & R) | (_ & -> & R & _)]]];
    try congruence.
  - destruct (auto_deps_all _ _ D) as (d1 & _).
    destruct Hs as [Hs | Hs]; [congruence|].
    split; [|congruence]. destruct Et as [-> | [-> _]]; auto.
  - split; [|congruence]. destruct Et as [-> | [-> _]]; auto.
  - split; [|congruence]. destruct Et as [-> | [-> _]]; auto.
Qed.

Lemma mild_keeps_shown us :
  mild us -> forall s, showExport s = true -> showExport (commit us s) = true.
Proof.
  induction 1; intros s Hs; simpl; auto.
Qed.

Lemma stop_step env s :
  isRunning (view s) = true ->
  exists s',
    step env s ClickStop = Some s'
    /\ isRunning (view s') = false /\ timer s' = None
    /\ inflight s' = inflight s
    /\ history (view s') = history (view s)
    /\ roundCount (view s') = roundCount (view s)
    /\ turn (view s') = turn (view s)
    /\ loading (view s') = loading (view s)
    /\ error (view s') = error (view s)
    /\ (history (view s) <> [] -> canExport (view s') = true).
Proof.
  intros Hrun. exists (render s (stopDebate (view s)) (inflight s)).
  split; [simpl; rewrite Hrun; reflexivity|].
  assert (F : isRunning (commit (stopDebate (view s)) (view s)) = false
              /\ history (commit (stopDebate (view s)) (view s)) = history (view s)
              /\ roundCount (commit (stopDebate (view s)) (view s)) = roundCount (view s)
              /\ turn (commit (stopDebate (view s)) (view s)) = turn (view s)
              /\ loading (commit (stopDebate (view s)) (view s)) = loading (view s)
              /\ error (commit (stopDebate (view s)) (view s)) = error (view s)
              /\ (history (view s) <> [] ->
                  showExport (commit (stopDebate (view s)) (view s)) = true)).
  { unfold stopDebate, when. destruct (0 <? length (history (view s))) eqn:Hh; simpl;
      (split; [reflexivity|]); (split; [reflexivity|]); (split; [reflexivity|]);
      (split; [reflexivity|]); (split; [reflexivity|]); (split; [reflexivity|]);
      intros Hne; [reflexivity|].
    destruct (history (view s)); [congruence | discriminate Hh]. }
  destruct F as (F1 & F2 & F3 & F4 & F5 & F6 & F7).
  destruct (render_halted s (stopDebate (view s)) (inflight s) F1 (or_introl Hrun))
    as [Ht Hr].
  destruct (render_view s (stopDebate (view s)) (inflight s))
    as (_ & Hh & Htn & Hl & He & Hrc & _).
  rewrite render_inflight, Hh, Htn, Hl, He, Hrc.
  repeat split; try assumption.
  intros Hne. unfold canExport.
  destruct (render_shape s (stopDebate (view s)) (inflight s)) as (t1 & us1 & E1 & Ev & _).
  rewrite Ev.
  rewrite (mild_keeps_shown _ (effects_mild _ _ _ _ _ E1) _ (F7 Hne)). cbn [orb andb].
  destruct (mild_commit _ (effects_mild _ _ _ _ _ E1)
              (commit (stopDebate (view s)) (view s))) as (_ & Hh' & _).
  rewrite Hh', F2. destruct (history (view s)); [congruence | reflexivity].
Qed.

(** X16.  [Parar debate] halts the run and cancels the turn that was scheduled;
    it changes nothing else the page shows but the export buttons, and it
    leaves the pending calls pending. *)
Theorem stop_halts_and_cancels env s :
  isRunning (view s) = true ->
  exists s',
    step env s ClickStop = Some s'
    /\ isRunning (view s') = false /\ timer s' = None
    /\ inflight s' = inflight s
    /\ history (view s') = history (view s)
    /\ roundCount (view s') = roundCount (view s)
    /\ turn (view s') = turn (view s)
    /\ loading (view s') = loading (view s)
    /\ error (view s') = error (view s)
    /\ (history (view s) <> [] -> canExport (view s') = true).
Proof. exact (stop_step env s). Qed.

Lemma settle_step env s i c o res :
  nth_error (inflight s) i = Some c -> fetched env c o = Some res ->
  step env s (Settles i o)
  = Some (render s (nextTurn_end c res) (remove_nth i (inflight s))).
Proof. intros Hc Hf. simpl. rewrite Hc, Hf. reflexivity. Qed.

Lemma success_fields c msg st :
  let cur := commit (nextTurn_end c (inl msg)) st in
  history cur = history st ++ [msg] /\ roundCount cur = roundCount st + 1
  /\ turn cur = other (turn st) /\ isRunning cur = isRunning st
  /\ loading cur = false.
Proof. simpl. repeat split. Qed.

(** X17.  Stopping does not take back a call that is pending: when its answer
    arrives it is appended and counted, and still no turn is scheduled. *)
Theorem answer_after_stop env s i c o msg :
  isRunning (view s) = true ->
  nth_error (inflight s) i = Some c ->
  fetched env c o = Some (inl msg) ->
  exists s1 s2,
    step env s ClickStop = Some s1
    /\ step env s1 (Settles i o) = Some s2
    /\ history (view s2) = history (view s) ++ [msg]
    /\ roundCount (view s2) = roundCount (view s) + 1
    /\ isRunning (view s2) = false
    /\ timer s2 = None.
Proof.
  intros Hrun Hc Hf.
  destruct (stop_step env s Hrun)
    as (s1 & E1 & R1 & T1 & I1 & H1 & C1 & _).
  exists s1. eexists. split; [exact E1|].
  rewrite <- I1 in Hc.
  split; [apply (settle_step env s1 i c o _ Hc Hf)|].
  destruct (render_view s1 (nextTurn_end c (inl msg)) (remove_nth i (inflight s1)))
    as (_ & Hh & _ & _ & _ & Hrc & _).
  destruct (success_fields c msg (view s1)) as (F1 & F2 & _ & F4 & _).
  rewrite Hh, Hrc, F1, F2, H1, C1.
  split; [reflexivity|]. split; [reflexivity|].
  assert (Hc' : isRunning (commit (nextTurn_end c (inl msg)) (view s1)) = false)
    by (rewrite F4; exact R1).
  destruct (render_halted s1 _ (remove_nth i (inflight s1)) Hc' (or_intror T1)).
  auto.
Qed.

(** X18.  [Reset] does not take back a call that is pending either: its answer
    is appended to the cleared history, counted as the first round, and the
    turn passes to the local model, whichever route the call went to. *)
Theorem answer_after_reset env s i c o msg :
  isRunning (view s) = false ->
  nth_error (inflight s) i = Some c ->
  fetched env c o = Some (inl msg) ->
  exists s1 s2,
    step env s ClickReset = Some s1
    /\ step env s1 (Settles i o) = Some s2
    /\ history (view s2) = [msg]
    /\ roundCount (view s2) = 1
    /\ turn (view s2) = llama
    /\ speaker msg = endpoint c.
Proof.
  intros Hrun Hc Hf.
  exists (render s reset (inflight s)). eexists.
  split; [simpl; rewrite Hrun; reflexivity|].
  assert (Hc' : nth_error (inflight (render s reset (inflight s))) i = Some c)
    by (rewrite render_inflight; exact Hc).
  split; [apply (settle_step env _ i c o _ Hc' Hf)|].
  destruct (render_view (render s reset (inflight s)) (nextTurn_end c (inl msg))
              (remove_nth i (inflight (render s reset (inflight s)))))
    as (_ & Hh & Ht & _ & _ & Hrc & _).
  destruct (render_view s reset (inflight s)) as (_ & Hh0 & Ht0 & _ & _ & Hrc0 & _).
  destruct (success_fields c msg (view (render s reset (inflight s))))
    as (F1 & F2 & F3 & _).
  rewrite Hh, Ht, Hrc, F1, F2, F3, Hh0, Ht0, Hrc0.
  repeat split.
  unfold fetched in Hf.
  destruct o as [[ot|m]|[ct|st txt|m]|m]; destruct (endpoint c);
    simpl in Hf; try discriminate; injection Hf as <-; reflexivity.
Qed.

(** X19.  The answer that brings the counter to the cap ends the debate: the run
    is halted, no turn is scheduled and the export buttons are shown,
    whether the session was still running or had been stopped. *)
Theorem last_round_finishes env s i c o msg :
  roundCount (view s) + 1 = maxRounds ->
  nth_error (inflight s) i = Some c ->
  fetched env c o = Some (inl msg) ->
  exists s',
    step env s (Settles i o) = Some s'
    /\ history (view s') = history (view s) ++ [msg]
    /\ roundCount (view s') = maxRounds
    /\ isRunning (view s') = false
    /\ timer s' = None
    /\ showExport (view s') = true
    /\ canExport (view s') = true.
Proof.
  intros Hcap Hc Hf. eexists.
  split; [apply (settle_step env s i c o _ Hc Hf)|].
  set (us := nextTurn_end c (inl msg)). set (calls := remove_nth i (inflight s)).
  destruct (render_view s us calls) as (_ & Hh & _ & _ & _ & Hrc & _).
  destruct (success_fields c msg (view s)) as (F1 & F2 & _ & F4 & F5).
  fold us in F1, F2, F4, F5.
  destruct (render_shape s us calls) as (t1 & us1 & E1 & Ev & Et).
  set (cur := commit us (view s)) in *.
  assert (Hfin : isFinished cur = true)
    by (unfold isFinished; rewrite F2, Hcap; apply Nat.leb_refl).
  assert (Hnot : isFinished (view s) = false)
    by (unfold isFinished; apply Nat.leb_gt; lia).
  assert (Hlen : (0 <? length (history cur)) = true)
    by (rewrite F1, length_app; apply Nat.ltb_lt; simpl; lia).
  assert (Hex : export_deps_eqb (view s) cur = false)
    by (unfold export_deps_eqb; rewrite Hnot, Hfin; reflexivity).
  assert (Hau : auto_deps_eqb (view s) cur = false).
  { unfold auto_deps_eqb. rewrite F2, eqb_succ.
    rewrite andb_false_r. reflexivity. }
  assert (Hlt : (roundCount cur <? maxRounds) = false)
    by (rewrite F2, Hcap; apply Nat.ltb_irrefl).
  assert (Hle : (maxRounds <=? roundCount cur) = true) by exact Hfin.
  destruct (mild_commit _ (effects_mild _ _ _ _ _ E1) cur) as (_ & Hh1 & _).
  unfold effects in E1. rewrite Hex, Hau in E1.
  unfold auto_effect, export_effect, when in E1.
  rewrite Hfin, Hlen, Hlt, Hle, !andb_false_r, andb_true_r in E1. cbn [andb] in E1.
  assert (Q : t1 = None /\ isRunning (commit us1 cur) = false
              /\ showExport (commit us1 cur) = true).
  { destruct (isRunning cur) eqn:R; injection E1 as <- <-; simpl; auto. }
  destruct Q as (-> & Q2 & Q3).
  rewrite Hh, Hrc. fold cur. rewrite F1, F2.
  split; [reflexivity|]. split; [exact Hcap|].
  rewrite Ev. split; [exact Q2|].
  split; [destruct Et as [-> | [-> _]]; reflexivity|].
  split; [exact Q3|].
  unfold canExport. rewrite Q3, Hh1. exact Hlen.
Qed.

Lemma stop_halts_and_cancels_witness :
  isRunning (view one_round) = true
  /\ timer one_round <> None
  /\ exists s',
       step no_env one_round ClickStop = Some s'
       /\ isRunning (view s') = false /\ timer s' = None
       /\ inflight s' = inflight one_round
       /\ history (view s') = history (view one_round)
       /\ roundCount (view s') = roundCount (view one_round)
       /\ turn (view s') = turn (view one_round)
       /\ loading (view s') = loading (view one_round)
       /\ error (view s') = error (view one_round)
       /\ (history (view one_round) <> [] -> canExport (view s') = true).
Proof.
  assert (H : isRunning (view one_round) = true) by reflexivity.
  split; [exact H|]. split; [discriminate|].
  exact (stop_halts_and_cancels no_env one_round H).
Defined.

Lemma answer_after_stop_witness :
  exists s1 s2,
    step no_env second_turn ClickStop = Some s1
    /\ step no_env s1 (llama_says (lit "hello")) = Some s2
    /\ history (view s2)
       = history (view second_turn)
           ++ [ {| speaker := llama; content := lit "hello" |} ]
    /\ roundCount (view s2) = roundCount (view second_turn) + 1
    /\ isRunning (view s2) = false
    /\ timer s2 = None.
Proof.
  apply (answer_after_stop no_env second_turn 0
           {| endpoint := llama;
              sent := {| req_history := Some (history (view second_turn));
                         req_topic := Some initial_topic |} |}
           (ByOllama (AdapterB.Answered (Some (lit "hello"))))
           {| speaker := llama; content := lit "hello" |});
    reflexivity.
Defined.

Lemma answer_after_reset_witness :
  exists s1 s2,
    step no_env stopped_early ClickReset = Some s1
    /\ step no_env s1 (openai_says (lit "hola")) = Some s2
    /\ history (view s2) = [ {| speaker := openai; content := lit "hola" |} ]
    /\ roundCount (view s2) = 1
    /\ turn (view s2) = llama
    /\ speaker {| speaker := openai; content := lit "hola" |} = endpoint first_call.
Proof.
  apply (answer_after_reset no_env stopped_early 0 first_call
           (ByOpenAI (AdapterA.Created (Some (lit "hola"))))
           {| speaker := openai; content := lit "hola" |});
    reflexivity.
Defined.

Lemma last_round_finishes_witness :
  roundCount (view nine_rounds) = 9
  /\ exists s',
       step no_env nine_rounds (llama_says (lit "10")) = Some s'
       /\ history (view s')
          = history (view nine_rounds)
              ++ [ {| speaker := llama; content := lit "10" |} ]
       /\ roundCount (view s') = maxRounds
       /\ isRunning (view s') = false
       /\ timer s' = None
       /\ showExport (view s') = true
       /\ canExport (view s') = true.
Proof.
  split; [reflexivity|].
  apply (last_round_finishes no_env nine_rounds 0
           {| endpoint := llama;
              sent := {| req_history := Some (history (view nine_rounds));
                         req_topic := Some initial_topic |} |}
           (ByOllama (AdapterB.Answered (Some (lit "10"))))
           {| speaker := llama; content := lit "10" |});
    reflexivity.
Defined.

End Halting.

(** ** The controller: a debate that is left to itself *)

Module Calm.
Import Controller ControllerFacts Scheduling Halting.

Lemma alternates_snoc h : forall first m,
  alternates first h = true -> speaker m = next_after first h ->
  alternates first (h ++ [m]) = true.
Proof.
  induction h as [| x h IH]; intros first m A S; simpl in *.
  - rewrite S. destruct first; reflexivity.
  - apply andb_true_iff in A. destruct A as [A1 A2].
    rewrite A1. exact (IH _ _ A2 S).
Qed.

Lemma next_after_snoc h : forall first m,
  next_after first (h ++ [m]) = other (next_after first h).
Proof. induction h as [| x h IH]; intros first m; simpl; auto. Qed.

Lemma fetched_speaker env c o msg :
  fetched env c o = Some (inl msg) -> speaker msg = endpoint c.
Proof.
  unfold fetched.
  destruct o as [[ot|m]|[ct|st txt|m]|m]; destruct (endpoint c);
    simpl; intros Hf; try discriminate; injection Hf as <-; reflexivity.
Qed.

Lemma is_nil_nil {A} (l : list A) : is_nil l = true -> l = [].
Proof. destruct l; [reflexivity | discriminate]. Qed.

Lemma calm_is_patient s e : orderly s -> calm s e = true -> patient s e = true.
Proof.
  intros (_ & _ & _ & H4 & _) C. destruct e; try reflexivity.
  simpl in *. apply andb_true_iff in C. destruct C as [_ C].
  rewrite (H4 (is_nil_nil _ C)). reflexivity.
Qed.

Lemma steady_step env s e s' :
  orderly s -> punctual s -> steady s -> calm s e = true ->
  step env s e = Some s' -> steady s'.
Proof.
  intros Ho Hp (A & T & I) C E.
  pose proof Ho as (_ & O2 & _).
  destruct Hp as (_ & Hold & _).
  apply step_inv in E.
  assert (Hstart : history (view s) = [] -> inflight s = [] ->
            steady (render s (fst (startConversation (view s)))
                      (inflight s ++ [snd (startConversation (view s))]))).
  { intros Hh Hi. unfold steady. rewrite render_inflight.
    destruct (render_view s (fst (startConversation (view s)))
                (inflight s ++ [snd (startConversation (view s))]))
      as (_ & Hh' & Ht' & _).
    rewrite Hh', Ht'. unfold startConversation, nextTurn_begin, when.
    rewrite Hh, Hi. simpl.
    split; [exact A|]. split; [exact T|]. intros c [<- | []]. reflexivity. }
  assert (Hsame : forall us,
            history (commit us (view s)) = history (view s) ->
            turn (commit us (view s)) = turn (view s) ->
            steady (render s us (inflight s))).
  { intros us Hh Ht. unfold steady. rewrite render_inflight.
    destruct (render_view s us (inflight s)) as (_ & Hh' & Ht' & _).
    rewrite Hh', Ht', Hh, Ht. auto. }
  destruct e; simpl in C.
  - apply andb_true_iff in C. destruct C as [C1 C2].
    destruct E as (_ & _ & ->).
    apply Hstart; apply is_nil_nil; assumption.
  - apply andb_true_iff in C. destruct C as [C1 C2].
    destruct E as [[_ ->] | [_ ->]]; [|unfold steady; auto].
    apply Hstart; apply is_nil_nil; assumption.
  - destruct E as [_ ->]. apply Hsame; unfold stopDebate, when;
      destruct (0 <? length _); reflexivity.
  - destruct E as [_ ->]. unfold steady. rewrite render_inflight.
    destruct (render_view s reset (inflight s)) as (_ & Hh' & Ht' & _).
    rewrite Hh', Ht', (is_nil_nil _ C). simpl. repeat split. intros c [].
  - subst s'. apply Hsame; reflexivity.
  - destruct E as (r & Tm & ->).
    destruct (Hold r Tm) as (_ & _ & c1 & _).
    unfold steady. rewrite render_inflight.
    destruct (render_view {| view := view s; timer := None; inflight := inflight s |}
                (fst (nextTurn_begin r)) (inflight s ++ [snd (nextTurn_begin r)]))
      as (_ & Hh' & Ht' & _).
    rewrite Hh', Ht'. simpl. repeat split; auto.
    intros c Hin. apply in_app_or in Hin. destruct Hin as [Hin | [<- | []]]; auto.
  - destruct E as (c & res & Hc & Hf & ->).
    unfold steady. rewrite render_inflight.
    rewrite (Patient.alone_is_first _ _ _ O2 Hc).
    destruct (render_view s (nextTurn_end c res) [])
      as (_ & Hh' & Ht' & _).
    rewrite Hh', Ht'.
    destruct res as [msg | message].
    + destruct (success_fields c msg (view s)) as (F1 & _ & F3 & _).
      rewrite F1, F3.
      assert (Sp : speaker msg = next_after openai (history (view s))).
      { rewrite (fetched_speaker env c o msg Hf), <- T.
        apply I. apply (nth_error_In _ _ Hc). }
      split; [apply alternates_snoc; assumption|].
      split; [rewrite next_after_snoc, T; reflexivity|].
      intros c' [].
    + assert (F : history (commit (nextTurn_end c (inr message)) (view s)) = history (view s)
                  /\ turn (commit (nextTurn_end c (inr message)) (view s)) = turn (view s)).
      { unfold nextTurn_end, when. destruct (0 <? length _); split; reflexivity. }
      destruct F as [-> ->]. repeat split; auto. intros c' [].
Qed.

Lemma calm_invariants env s :
  reachable_calmly env s -> reachable env s /\ orderly s /\ steady s.
Proof.
  induction 1 as [| s e s' _ (R & O & S) C E].
  - split; [apply reach_mounted|]. split.
    + unfold orderly, in_step. simpl. unfold maxRounds.
      repeat split; try discriminate; try lia; congruence.
    + unfold steady. simpl. repeat split. intros c [].
  - split; [exact (reach_step env s e s' R E)|]. split.
    + exact (Patient.orderly_step env s e s' O (calm_is_patient s e O C) E).
    + exact (steady_step env s e s' O (reachable_punctual env s R) S C E).
Qed.

(** X3.  A debate that is started from a cleared page with no call pending, and
    reset only while no call is pending, alternates from the hosted model on
    and stays within the cap, whatever else happens (answers, failures,
    stops, the topic edited, the timer). *)
Theorem calm_debate_alternates env s :
  reachable_calmly env s ->
  alternates openai (history (view s)) = true
  /\ turn (view s) = next_after openai (history (view s))
  /\ roundCount (view s) <= maxRounds
  /\ length (inflight s) <= 1.
Proof.
  intros R. destruct (calm_invariants env s R) as (_ & O & (A & T & _)).
  destruct O as (_ & O2 & _ & _ & _ & O6). auto.
Qed.

Lemma calm_debate_alternates_witness :
  reachable_calmly no_env one_round
  /\ alternates openai (history (view one_round)) = true
  /\ turn (view one_round) = next_after openai (history (view one_round))
  /\ roundCount (view one_round) <= maxRounds
  /\ length (inflight one_round) <= 1.
Proof.
  pose proof Instances.one_round_calmly as R.
  split; [exact R|]. exact (calm_debate_alternates no_env one_round R).
Defined.

End Calm.

(** ** The controller: how a debate opens, what the history holds *)

Module Histories.
Import Controller ControllerFacts Scheduling Halting.

(** On a cleared page it is the hosted model's turn. *)
Lemma empty_history_turn env s :
  reachable env s -> history (view s) = [] -> turn (view s) = openai.
Proof.
  induction 1 as [| s e s' _ IH E]; [reflexivity|].
  apply step_inv in E.
  assert (Hsame : forall s0 us calls,
            view s0 = view s ->
            history (commit us (view s)) = history (view s) ->
            turn (commit us (view s)) = turn (view s) ->
            history (view (render s0 us calls)) = [] ->
            turn (view (render s0 us calls)) = openai).
  { intros s0 us calls V Hh Ht.
    destruct (render_view s0 us calls) as (_ & Hh' & Ht' & _).
    rewrite Hh', Ht', V, Hh, Ht. exact IH. }
  assert (Hstart : forall calls,
            history (view (render s (fst (startConversation (view s))) calls)) = [] ->
            turn (view (render s (fst (startConversation (view s))) calls)) = openai).
  { intros calls.
    destruct (render_view s (fst (startConversation (view s))) calls)
      as (_ & Hh' & Ht' & _).
    rewrite Hh', Ht'. unfold startConversation, nextTurn_begin, when.
    destruct (0 <? length (history (view s))); simpl; auto. }
  destruct e.
  - destruct E as (_ & _ & ->). apply Hstart.
  - destruct E as [[_ ->] | [_ ->]]; [apply Hstart | exact IH].
  - destruct E as [_ ->]. apply Hsame; auto; unfold stopDebate, when;
      destruct (0 <? length _); reflexivity.
  - destruct E as [_ ->].
    destruct (render_view s reset (inflight s)) as (_ & _ & Ht' & _).
    intros _. rewrite Ht'. reflexivity.
  - subst s'. apply Hsame; reflexivity.
  - destruct E as (r & _ & ->). apply Hsame; reflexivity.
  - destruct E as (c & res & _ & _ & ->).
    destruct res as [msg | message].
    + destruct (render_view s (nextTurn_end c (inl msg)) (remove_nth i (inflight s)))
        as (_ & Hh' & _).
      rewrite Hh'. destruct (success_fields c msg (view s)) as (F1 & _).
      rewrite F1. intros Hnil. destruct (history (view s)); discriminate Hnil.
    + apply Hsame; auto; unfold nextTurn_end, when;
        destruct (0 <? length _); reflexivity.
Qed.

(** X6.  A debate started on a cleared page opens with the hosted model: the
    call goes to adapter A with an empty history, and the prompt adapter A
    builds from it is the opening prompt for the topic that is in the input
    at that moment. *)
Theorem cleared_page_opens_with_topic env s e :
  reachable env s ->
  history (view s) = [] ->
  truthy (trim (topic (view s))) = true ->
  (e = ClickStart /\ loading (view s) = false) \/ e = PressEnter ->
  exists s' c,
    step env s e = Some s'
    /\ inflight s' = inflight s ++ [c]
    /\ endpoint c = openai
    /\ req_history (sent c) = Some []
    /\ AdapterA.user_prompt (sent c)
       = lit "Inicia una conversaci" ++ [243%N]
           ++ lit "n con otro LLM sobre este tema: " ++ DQUOTE
           ++ topic (view s) ++ DQUOTE ++ lit "."
    /\ isRunning (view s') = true /\ loading (view s') = true.
Proof.
  intros R Hh Ht He.
  pose proof (empty_history_turn env s R Hh) as Hturn.
  destruct (reachable_punctual env s R) as (Hin & _).
  set (us := fst (startConversation (view s))).
  set (c := snd (startConversation (view s))).
  exists (render s us (inflight s ++ [c])), c.
  split.
  { destruct He as [[-> Hl] | ->]; simpl; rewrite ?Hl, Ht; reflexivity. }
  rewrite render_inflight. split; [reflexivity|].
  assert (F : isRunning (commit us (view s)) = true
              /\ loading (commit us (view s)) = true
              /\ roundCount (commit us (view s)) = 0).
  { unfold us, startConversation, nextTurn_begin, when. rewrite Hh. simpl.
    unfold in_step in Hin. rewrite Hh in Hin. auto. }
  destruct F as (F1 & F2 & F3).
  unfold c, startConversation, nextTurn_begin. cbn [snd endpoint sent req_history].
  rewrite Hturn, Hh.
  split; [reflexivity|]. split; [reflexivity|]. split; [reflexivity|].
  split.
  - apply render_keeps_running; [exact F1|]. rewrite F3. unfold maxRounds. lia.
  - match goal with
    | |- loading (view (render s us ?x)) = true =>
        destruct (render_view s us x) as (_ & _ & _ & Hl' & _); rewrite Hl'
    end.
    exact F2.
Qed.

Lemma cleared_page_opens_with_topic_witness :
  exists s' c,
    step no_env mounted ClickStart = Some s'
    /\ inflight s' = inflight mounted ++ [c]
    /\ endpoint c = openai
    /\ req_history (sent c) = Some []
    /\ AdapterA.user_prompt (sent c)
       = lit "Inicia una conversaci" ++ [243%N]
           ++ lit "n con otro LLM sobre este tema: " ++ DQUOTE
           ++ topic (view mounted) ++ DQUOTE ++ lit "."
    /\ isRunning (view s') = true /\ loading (view s') = true.
Proof.
  apply (cleared_page_opens_with_topic no_env mounted ClickStart
           (reach_mounted no_env)).
  - reflexivity.
  - reflexivity.
  - left. split; reflexivity.
Defined.

End Histories.

(** ** The adapters: what a reply is, what a request holds *)

Module Replies.
Import Controller ControllerFacts Scheduling Halting.

Lemma trimStart_fixed s :
  (forall c r, s = c :: r -> is_space c = false) -> trimStart s = s.
Proof.
  destruct s as [| c r]; [reflexivity|]. intros H. simpl.
  rewrite (H c r eq_refl). reflexivity.
Qed.

(** [trim] leaves a trimmed string as it is. *)
Lemma trim_trim t : trim (trim t) = trim t.
Proof.
  destruct (Adapters.trim_spec t) as (pre & post & _ & _ & _ & Hhead & Hlast).
  unfold trim at 1. rewrite (trimStart_fixed (trim t)) by exact Hhead.
  unfold trimEnd. rewrite trimStart_fixed, rev_involutive; [reflexivity|].
  intros c r Hr. apply (Hlast c (rev r)).
  rewrite <- (rev_involutive (trim t)), Hr. reflexivity.
Qed.

Lemma or_placeholder_tidy t :
  or_else (Some (trim t)) placeholder <> []
  /\ trim (or_else (Some (trim t)) placeholder) = or_else (Some (trim t)) placeholder.
Proof.
  unfold or_else. destruct (trim t) as [| c r] eqn:T; simpl truthy; cbv iota.
  - split; [discriminate | reflexivity].
  - split; [discriminate|]. rewrite <- T. apply trim_trim.
Qed.

Lemma adapterA_reply_tidy env req up msg :
  AdapterA.POST env req up = Reply msg -> speaker msg = openai /\ tidy msg.
Proof.
  unfold AdapterA.POST. destruct req as [r | m]; [|discriminate].
  destruct up as [[t|] | m]; try discriminate; intros E; injection E as <-;
    (split; [reflexivity|]); unfold tidy; simpl.
  - apply or_placeholder_tidy.
  - split; [discriminate | reflexivity].
Qed.

Lemma adapterB_reply_tidy env req up msg :
  AdapterB.POST env req up = Reply msg -> speaker msg = llama /\ tidy msg.
Proof.
  unfold AdapterB.POST. destruct req as [r | m]; [|discriminate].
  destruct up as [ct | st txt | m]; try discriminate; intros E; injection E as <-.
  split; [reflexivity|]. unfold tidy. simpl. apply or_placeholder_tidy.
Qed.

(** X8.  Whatever the request and whatever the model service does, a message a
    route handler answers with carries the handler's own speaker, and a
    content that is not empty and has no white space around it. *)
Theorem replies_are_tidy env req :
  (forall up msg, AdapterA.POST env req up = Reply msg ->
                  speaker msg = openai /\ content msg <> []
                  /\ trim (content msg) = content msg)
  /\ (forall up msg, AdapterB.POST env req up = Reply msg ->
                     speaker msg = llama /\ content msg <> []
                     /\ trim (content msg) = content msg).
Proof.
  split; intros up msg E.
  - exact (adapterA_reply_tidy env req up msg E).
  - exact (adapterB_reply_tidy env req up msg E).
Qed.

Lemma fetched_tidy env c o msg :
  fetched env c o = Some (inl msg) -> tidy msg.
Proof.
  unfold fetched.
  destruct o as [up | up | m]; destruct (endpoint c); try discriminate.
  - destruct (AdapterA.POST env (Body (sent c)) up) as [m0 | e] eqn:P;
      [|discriminate].
    intros E. injection E as <-. apply (adapterA_reply_tidy _ _ _ _ P).
  - destruct (AdapterB.POST env (Body (sent c)) up) as [m0 | e] eqn:P;
      [|discriminate].
    intros E. injection E as <-. apply (adapterB_reply_tidy _ _ _ _ P).
Qed.

(** X7.  Every message of every reachable history is a message as the route
    handlers write them, with a content that is not empty and that [trim]
    leaves as it is: the page never shows an empty bubble, nor one with white
    space around its text. *)
Theorem history_is_tidy env s :
  reachable env s -> Forall tidy (history (view s)).
Proof.
  induction 1 as [| s e s' _ IH E]; [constructor|].
  apply step_inv in E.
  assert (Hsub : forall s0 us calls,
            view s0 = view s ->
            Forall tidy (history (commit us (view s))) ->
            Forall tidy (history (view (render s0 us calls)))).
  { intros s0 us calls V H.
    destruct (render_view s0 us calls) as (_ & Hh & _). rewrite Hh, V. exact H. }
  assert (Hstart : Forall tidy
            (history (commit (fst (startConversation (view s))) (view s)))).
  { unfold startConversation, nextTurn_begin, when.
    destruct (0 <? length (history (view s))); simpl; [constructor | exact IH]. }
  destruct e.
  - destruct E as (_ & _ & ->). apply Hsub; auto.
  - destruct E as [[_ ->] | [_ ->]]; [apply Hsub; auto | exact IH].
  - destruct E as [_ ->]. apply Hsub; [reflexivity|]. unfold stopDebate, when.
    destruct (0 <? length _); exact IH.
  - destruct E as [_ ->]. apply Hsub; [reflexivity|]. constructor.
  - subst s'. apply Hsub; auto.
  - destruct E as (r & _ & ->). apply Hsub; auto.
  - destruct E as (c & res & _ & Hf & ->). apply Hsub; [reflexivity|].
    destruct res as [msg | message].
    + destruct (success_fields c msg (view s)) as (F1 & _). rewrite F1.
      apply Forall_app. split; [exact IH|].
      constructor; [exact (fetched_tidy env c o msg Hf) | constructor].
    + unfold nextTurn_end, when. destruct (0 <? length _); exact IH.
Qed.

Lemma labelled_length m : 2 <= length (labelled m).
Proof.
  unfold labelled. rewrite !length_app. simpl. lia.
Qed.

Lemma transcript_length m h : 0 < length (AdapterA.transcript (Some (m :: h))).
Proof.
  unfold AdapterA.transcript. cbn [map join].
  pose proof (labelled_length m) as L.
  destruct (map labelled h); [lia|]. rewrite length_app. lia.
Qed.

(** X9.  Adapter A reads the topic for the opening only: once the history holds
    a message, the request it builds is the same for every topic. *)
Theorem adapterA_topic_only_opens env history topic1 topic2 :
  history <> [] ->
  AdapterA.request env {| req_history := Some history; req_topic := topic1 |}
  = AdapterA.request env {| req_history := Some history; req_topic := topic2 |}.
Proof.
  intros Hne. destruct history as [| m h]; [congruence|].
  unfold AdapterA.request, AdapterA.user_prompt. cbn [req_history req_topic].
  pose proof (transcript_length m h) as L. apply Nat.ltb_lt in L.
  rewrite L. reflexivity.
Qed.

Lemma labelled_inj m1 m2 : labelled m1 = labelled m2 -> m1 = m2.
Proof.
  destruct m1 as [s1 c1], m2 as [s2 c2]. unfold labelled. simpl.
  destruct s1, s2; simpl; intros E; try discriminate;
    injection E as E; rewrite E; reflexivity.
Qed.

(** X10.  The message list adapter B sends determines the history it was built
    from: no two histories give the same list. *)
Theorem adapterB_messages_determine_history h1 h2 :
  AdapterB.build_messages (Some h1) = AdapterB.build_messages (Some h2) ->
  h1 = h2.
Proof.
  unfold AdapterB.build_messages. cbn [nullish app].
  intros E. injection E as E. apply app_inv_tail in E.
  revert h2 E. induction h1 as [| m1 h1 IH]; intros [| m2 h2] E; simpl in E;
    try discriminate; [reflexivity|].
  injection E as Em Eh. rewrite (labelled_inj _ _ Em), (IH h2 Eh). reflexivity.
Qed.

Lemma join_merged sp a line rest :
  join LF (labelled {| speaker := sp; content := a ++ LF ++ line |} :: rest)
  = join LF (labelled {| speaker := sp; content := a |} :: line :: rest).
Proof.
  assert (L : labelled {| speaker := sp; content := a ++ LF ++ line |}
              = labelled {| speaker := sp; content := a |} ++ LF ++ line).
  { unfold labelled. cbn [speaker content]. rewrite <- !app_assoc. reflexivity. }
  rewrite L. generalize (labelled {| speaker := sp; content := a |}). intros p.
  cbn [join]. destruct rest; rewrite <- ?app_assoc; reflexivity.
Qed.

(** X11.  The transcript adapter A sends does not determine the history: a
    message whose content holds a line break and a labelled line gives the
    request that two messages give. *)
Theorem adapterA_transcript_merges_messages env topic sp a m h :
  let merged := {| speaker := sp; content := a ++ LF ++ labelled m |} in
  let first := {| speaker := sp; content := a |} in
  AdapterA.request env {| req_history := Some (merged :: h); req_topic := topic |}
  = AdapterA.request env {| req_history := Some (first :: m :: h); req_topic := topic |}
  /\ merged :: h <> first :: m :: h.
Proof.
  intros merged first. split.
  - assert (T : AdapterA.transcript (Some (merged :: h))
                = AdapterA.transcript (Some (first :: m :: h))).
    { unfold AdapterA.transcript. cbn [map]. apply join_merged. }
    unfold AdapterA.request, AdapterA.user_prompt. cbn [req_history req_topic].
    rewrite T. reflexivity.
  - intros E. apply (f_equal (@length _)) in E. simpl in E. lia.
Qed.

Lemma replies_are_tidy_witness :
  AdapterA.POST no_env
    (Body {| req_history := Some []; req_topic := None |})
    (AdapterA.Created (Some (lit " hola ")))
  = Reply {| speaker := openai; content := lit "hola" |}
  /\ speaker {| speaker := openai; content := lit "hola" |} = openai
  /\ lit "hola" <> []
  /\ trim (lit "hola") = lit "hola".
Proof.
  assert (E : AdapterA.POST no_env
                (Body {| req_history := Some []; req_topic := None |})
                (AdapterA.Created (Some (lit " hola ")))
              = Reply {| speaker := openai; content := lit "hola" |})
    by reflexivity.
  split; [exact E|].
  exact (proj1 (replies_are_tidy no_env
                  (Body {| req_history := Some []; req_topic := None |}))
           (AdapterA.Created (Some (lit " hola ")))
           {| speaker := openai; content := lit "hola" |} E).
Defined.

Lemma history_is_tidy_witness :
  reachable no_env one_round /\ Forall tidy (history (view one_round)).
Proof.
  pose proof Instances.one_round_reachable as R.
  split; [exact R|]. exact (history_is_tidy no_env one_round R).
Defined.

Lemma adapterA_topic_only_opens_witness :
  greetings <> []
  /\ AdapterA.request no_env
       {| req_history := Some greetings; req_topic := Some (lit "a") |}
     = AdapterA.request no_env
         {| req_history := Some greetings; req_topic := Some (lit "b") |}.
Proof.
  assert (H : greetings <> []) by discriminate.
  split; [exact H|].
  exact (adapterA_topic_only_opens no_env greetings (Some (lit "a"))
           (Some (lit "b")) H).
Defined.

Lemma adapterB_messages_determine_history_witness :
  AdapterB.build_messages (Some greetings) = AdapterB.build_messages (Some greetings)
  /\ greetings = greetings.
Proof.
  assert (H : AdapterB.build_messages (Some greetings)
              = AdapterB.build_messages (Some greetings)) by reflexivity.
  split; [exact H|].
  exact (adapterB_messages_determine_history greetings greetings H).
Defined.

End Replies.

(** ** The wire and the exports *)

Module Wires.
Import Controller.

(** X12.  The body [nextTurn] writes is read by the route handler as the history
    and the topic of the render the call was made in. *)
Theorem request_reaches_handler r :
  read_request (request_text r) = Some (sent (snd (nextTurn_begin r))).
Proof.
  unfold read_request, request_text. rewrite JSONFacts.parse_stringify.
  cbn [JSON.get lit str_eqb]. simpl.
  rewrite ExportFacts.as_messages_values. reflexivity.
Qed.

Lemma fetched_answer env c o a :
  addressed c o = true -> answer env c o = Some a ->
  fetched env c o
  = Some (match a with
          | Reply msg => inl msg
          | Failure e => inr (Some (answer_text a))
          end).
Proof.
  unfold addressed, answer, fetched.
  destruct o as [[ot|m]|[ct|st txt|m]|m]; destruct (endpoint c);
    try discriminate; intros _ E; injection E as <-; reflexivity.
Qed.

(** X13.  What a route handler answers reaches the page: a message is read from
    the body as it was written; a failure is recorded as the text of its body,
    which is the JSON text of an object whose [error] is the handler's
    message, and which is not a message. *)
Theorem answer_reaches_page env c o a :
  addressed c o = true -> answer env c o = Some a ->
  match a with
  | Reply msg =>
      read_reply (answer_text a) = Some msg
      /\ fetched env c o = Some (inl msg)
  | Failure e =>
      JSON.parse (answer_text a) = Some (JSON.Obj [(lit "error", JSON.Str e)])
      /\ read_reply (answer_text a) = None
      /\ fetched env c o = Some (inr (Some (answer_text a)))
  end.
Proof.
  intros Ha E. pose proof (fetched_answer env c o a Ha E) as F.
  destruct a as [msg | e].
  - split; [|exact F]. unfold read_reply, answer_text.
    rewrite JSONFacts.parse_stringify. apply ExportFacts.as_message_value.
  - assert (P : JSON.parse (answer_text (Failure e))
                = Some (JSON.Obj [(lit "error", JSON.Str e)]))
      by apply JSONFacts.parse_stringify.
    split; [exact P|]. split; [|exact F].
    unfold read_reply. rewrite P. reflexivity.
Qed.

Lemma read_back_export s : read_back (export_json s) = Some (topic s, history s).
Proof.
  unfold read_back, export_json. rewrite JSONFacts.parse_stringify_indent.
  apply ExportFacts.as_session_value.
Qed.

(** X14.  Two sessions with the same JSON export have the same topic and the
    same history. *)
Theorem export_json_determines_session s1 s2 :
  export_json s1 = export_json s2 ->
  topic s1 = topic s2 /\ history s1 = history s2.
Proof.
  intros E. pose proof (read_back_export s1) as R1.
  rewrite E, read_back_export in R1. injection R1 as -> ->. auto.
Qed.

Lemma map_indexed_app {A B} (f : A -> nat -> B) (l1 l2 : list A) : forall i,
  map_indexed f i (l1 ++ l2)
  = map_indexed f i l1 ++ map_indexed f (i + length l1) l2.
Proof.
  induction l1 as [| x l1 IH]; intros i; simpl.
  - rewrite Nat.add_0_r. reflexivity.
  - rewrite IH. replace (i + S (length l1)) with (S i + length l1) by lia.
    reflexivity.
Qed.

Lemma join_last_merged sep (p q : list N) xs :
  join sep (xs ++ [p ++ sep ++ q]) = join sep (xs ++ [p; q]).
Proof.
  induction xs as [| x [| y xs] IH].
  - reflexivity.
  - simpl. reflexivity.
  - change (join sep ((x :: y :: xs) ++ [p ++ sep ++ q]))
      with (x ++ sep ++ join sep ((y :: xs) ++ [p ++ sep ++ q])).
    change (join sep ((x :: y :: xs) ++ [p; q]))
      with (x ++ sep ++ join sep ((y :: xs) ++ [p; q])).
    rewrite IH. reflexivity.
Qed.

(** X15.  The text export does not determine the session: a last message whose
    content holds a blank line and a numbered line reads as two messages. *)
Theorem export_txt_merges_messages s h sp a m :
  let merged :=
    {| speaker := sp;
       content := a ++ (LF ++ LF) ++ numbered m (S (length h)) |} in
  let first := {| speaker := sp; content := a |} in
  export_txt (setHistory (fun _ => h ++ [merged]) s)
  = export_txt (setHistory (fun _ => h ++ [first; m]) s)
  /\ h ++ [merged] <> h ++ [first; m].
Proof.
  intros merged first. split.
  - unfold export_txt. cbn [topic history setHistory].
    rewrite !map_indexed_app. cbn [map_indexed Nat.add].
    assert (N1 : numbered merged (length h)
                 = numbered first (length h) ++ (LF ++ LF)
                     ++ numbered m (S (length h))).
    { unfold numbered, merged, first. cbn [speaker content].
      rewrite <- !app_assoc. reflexivity. }
    rewrite N1, join_last_merged. reflexivity.
  - intros E. apply (f_equal (@length _)) in E. rewrite !length_app in E.
    simpl in E. lia.
Qed.

Lemma answer_reaches_page_witness :
  answer no_env llama_call model_not_found
  = Some (Failure (lit "Ollama error 404: model not found"))
  /\ JSON.parse (answer_text (Failure (lit "Ollama error 404: model not found")))
     = Some (JSON.Obj [(lit "error", JSON.Str (lit "Ollama error 404: model not found"))])
  /\ read_reply (answer_text (Failure (lit "Ollama error 404: model not found"))) = None
  /\ fetched no_env llama_call model_not_found
     = Some (inr (Some (answer_text (Failure (lit "Ollama error 404: model not found"))))).
Proof.
  assert (E : answer no_env llama_call model_not_found
              = Some (Failure (lit "Ollama error 404: model not found")))
    by reflexivity.
  split; [exact E|].
  exact (answer_reaches_page no_env llama_call model_not_found
           (Failure (lit "Ollama error 404: model not found")) eq_refl E).
Defined.

Lemma export_json_determines_session_witness :
  export_json initial = export_json initial
  /\ topic initial = topic initial /\ history initial = history initial.
Proof.
  assert (H : export_json initial = export_json initial) by reflexivity.
  split; [exact H|].
  exact (export_json_determines_session initial initial H).
Defined.

End Wires.
